(* ===================================================================== *)
(* kuali-docs-mcp: the Markdown -> Google Docs request compiler           *)
(* (src/markdown.ts), embedded as Rocq functions, and the properties of   *)
(* its three stages: line classification, inline parsing, layout.         *)
(* ===================================================================== *)

From Equations Require Import Equations.
From Stdlib Require Import Ascii String.
From Stdlib Require Import List NArith Arith Bool Lia.
Import ListNotations.

Set Implicit Arguments.

(* --------------------------------------------------------------------- *)
(* Strings                                                                *)
(* --------------------------------------------------------------------- *)
(* A JavaScript string is a sequence of UTF-16 code units; [s.length] is
   the number of code units and [s[i]] is the i-th one ([undefined] past
   the end).  Code units are kept as [N]. *)

Abbreviation char := N (only parsing).
Abbreviation jsstring := (list N) (only parsing).

(* ASCII literals, for readable examples. *)
Definition str (s : string) : jsstring :=
  map N_of_ascii (list_ascii_of_string s).

Definition NEWLINE : char := 10%N.
Definition SPACE : char := 32%N.
Definition HASH : char := 35%N.
Definition STAR : char := 42%N.
Definition DASH : char := 45%N.
Definition BACKTICK : char := 96%N.

(* [s[k]], with [None] for [undefined]. *)
Definition charAt (s : jsstring) (k : nat) : option char := nth_error s k.

(* [x === c] for a possibly undefined [x]. *)
Definition charIs (c : char) (x : option char) : bool :=
  match x with
  | Some d => N.eqb d c
  | None => false
  end.

(* Truthiness of a string: [if (s)] holds for the non-empty ones. *)
Definition nonEmpty (s : jsstring) : bool :=
  match s with
  | [] => false
  | _ :: _ => true
  end.

(* [s === ""] *)
Definition isEmpty (s : jsstring) : bool := negb (nonEmpty s).

(* Truthiness of an optional boolean property. *)
Definition truthy (b : option bool) : bool :=
  match b with
  | Some true => true
  | _ => false
  end.

(* --------------------------------------------------------------------- *)
(* Data model (the interfaces of markdown.ts)                             *)
(* --------------------------------------------------------------------- *)

Record InlineSegment : Type := {
  text : jsstring;
  bold : option bool;
  italic : option bool
}.

Inductive NamedStyle : Type :=
| HEADING_1
| HEADING_2
| HEADING_3
| NORMAL_TEXT.

Record DocSegment : Type := {
  inlines : list InlineSegment;
  style : NamedStyle;
  bullet : option bool
}.

(* [{ text: t }] *)
Definition plainRun (t : jsstring) : InlineSegment :=
  {| text := t; bold := None; italic := None |}.

(* [{ text: t, bold: true }] *)
Definition boldRun (t : jsstring) : InlineSegment :=
  {| text := t; bold := Some true; italic := None |}.

(* [{ text: t, italic: true }] *)
Definition italicRun (t : jsstring) : InlineSegment :=
  {| text := t; bold := None; italic := Some true |}.

(* --------------------------------------------------------------------- *)
(* parseInline                                                            *)
(* --------------------------------------------------------------------- *)
(* The cursor [i] only moves forward, so the loop state carries the
   suffix [text.slice(i)] in place of [i]: [text[i]] is [charAt rest 0],
   [text[i + 1]] is [charAt rest 1], [i < text.length] is [rest <> []]
   and [i += k] is [skipn k rest] (which, like the source, may step past
   the end). *)

(* [text[i] === "*" && text[i + 1] === "*"] *)
Definition atBold (rest : jsstring) : bool :=
  charIs STAR (charAt rest 0) && charIs STAR (charAt rest 1).

(* [text[i] === "*"] *)
Definition atStar (rest : jsstring) : bool := charIs STAR (charAt rest 0).

(* [text[i] === "`"] *)
Definition atTick (rest : jsstring) : bool := charIs BACKTICK (charAt rest 0).

(* The inner loops [while (i < text.length && !stop) acc += text[i++]]:
   the accumulated string and the suffix at which the loop exits. *)
Fixpoint scan (stop : jsstring -> bool) (rest : jsstring) : jsstring * jsstring :=
  match rest with
  | [] => ([], [])
  | c :: rest' =>
      if stop rest then ([], rest)
      else let r := scan stop rest' in (c :: fst r, snd r)
  end.

(* [if (current) result.push({ text: current })] *)
Definition pushCurrent (current : jsstring) (result : list InlineSegment)
  : list InlineSegment :=
  if nonEmpty current then result ++ [plainRun current] else result.

Lemma scan_length (stop : jsstring -> bool) (rest : jsstring) :
  length (snd (scan stop rest)) <= length rest.
Proof.
  induction rest as [|c rest' IH]; simpl; [lia|].
  destruct (stop (c :: rest')); simpl; lia.
Qed.

Lemma skipn_length_le (A : Type) (k : nat) (l : list A) :
  length (skipn k l) <= length l.
Proof. rewrite length_skipn. lia. Qed.

Equations? parseInline_loop (rest current : jsstring) (result : list InlineSegment)
  : list InlineSegment by wf (length rest) lt :=
  parseInline_loop [] current result := pushCurrent current result;
  parseInline_loop (c :: rest') current result :=
    if atBold (c :: rest') then
      parseInline_loop
        (skipn 2 (snd (scan atBold (skipn 2 (c :: rest')))))
        []
        (pushCurrent current result
           ++ [boldRun (fst (scan atBold (skipn 2 (c :: rest'))))])
    else if atStar (c :: rest') && negb (charIs STAR (charAt (c :: rest') 1)) then
      parseInline_loop
        (skipn 1 (snd (scan atStar (skipn 1 (c :: rest')))))
        []
        (pushCurrent current result
           ++ [italicRun (fst (scan atStar (skipn 1 (c :: rest'))))])
    else if atTick (c :: rest') then
      parseInline_loop
        (skipn 1 (snd (scan atTick (skipn 1 (c :: rest')))))
        []
        (pushCurrent current result
           ++ [italicRun (fst (scan atTick (skipn 1 (c :: rest'))))])
    else
      parseInline_loop (skipn 1 (c :: rest')) (current ++ [c]) result.
Proof.
  - pose proof (skipn_length_le 2 (snd (scan atBold (skipn 1 rest')))) as H2.
    pose proof (scan_length atBold (skipn 1 rest')) as Hs.
    pose proof (skipn_length_le 1 rest') as H1.
    simpl in H1, Hs, H2. lia.
  - pose proof (skipn_length_le 1 (snd (scan atStar rest'))) as H1.
    pose proof (scan_length atStar rest') as Hs.
    simpl in H1. lia.
  - pose proof (skipn_length_le 1 (snd (scan atTick rest'))) as H1.
    pose proof (scan_length atTick rest') as Hs.
    simpl in H1. lia.
Qed.

Definition parseInline (text : jsstring) : list InlineSegment :=
  parseInline_loop text [] [].

(* --------------------------------------------------------------------- *)
(* The library functions the classifier calls                             *)
(* --------------------------------------------------------------------- *)

(* [s.split(sep)] for a one-character separator: the pieces between the
   separators, in order; the empty string gives one empty piece. *)
Fixpoint split (sep : char) (s : jsstring) : list jsstring :=
  match s with
  | [] => [[]]
  | c :: s' =>
      if N.eqb c sep then [] :: split sep s'
      else match split sep s' with
           | [] => [[c]]
           | piece :: pieces => (c :: piece) :: pieces
           end
  end.

(* [pieces.join(sep)] *)
Fixpoint join (sep : char) (pieces : list jsstring) : jsstring :=
  match pieces with
  | [] => []
  | [piece] => piece
  | piece :: pieces' => piece ++ sep :: join sep pieces'
  end.

(* ECMAScript LineTerminator: LF, CR, LS, PS.  The regular expression
   atom [.] (no [s] flag) matches every code unit but these. *)
Definition lineTerminator (c : char) : bool :=
  (N.eqb c 10 || N.eqb c 13 || N.eqb c 8232 || N.eqb c 8233)%N.

(* ECMAScript WhiteSpace (TAB, VT, FF, SP, NBSP, ZWNBSP and the space
   separators) together with the line terminators: what [trim] strips. *)
Definition whiteSpace (c : char) : bool :=
  (N.eqb c 9 || N.eqb c 11 || N.eqb c 12 || N.eqb c 32 || N.eqb c 160
   || N.eqb c 5760 || (N.leb 8192 c && N.leb c 8202)
   || N.eqb c 8239 || N.eqb c 8287 || N.eqb c 12288 || N.eqb c 65279
   || lineTerminator c)%N.

Fixpoint dropWhile (p : char -> bool) (s : jsstring) : jsstring :=
  match s with
  | [] => []
  | c :: s' => if p c then dropWhile p s' else s
  end.

Fixpoint takeWhile (p : char -> bool) (s : jsstring) : jsstring :=
  match s with
  | [] => []
  | c :: s' => if p c then c :: takeWhile p s' else []
  end.

(* [s.trim()] *)
Definition trim (s : jsstring) : jsstring :=
  rev (dropWhile whiteSpace (rev (dropWhile whiteSpace s))).

(* The fixed head of a pattern: one character test per position, all
   anchored at the start of the line by [^]. *)
Fixpoint matchHead (pat : list (char -> bool)) (s : jsstring) : option jsstring :=
  match pat with
  | [] => Some s
  | p :: pat' =>
      match s with
      | [] => None
      | c :: s' => if p c then matchHead pat' s' else None
      end
  end.

(* [line.match(/^<pat>(.+)/)]: [None] for [null], otherwise capture group
   1.  [.+] is greedy and nothing follows it, so it takes the longest run
   of non-terminator characters after the head, and needs at least one. *)
Definition regexMatch (pat : list (char -> bool)) (line : jsstring) : option jsstring :=
  match matchHead pat line with
  | None => None
  | Some after =>
      match takeWhile (fun c => negb (lineTerminator c)) after with
      | [] => None
      | c :: cs => Some (c :: cs)
      end
  end.

Definition lit (c : char) : char -> bool := fun d => N.eqb d c.

(* /^# (.+)/, /^## (.+)/, /^### (.+)/, /^[-*] (.+)/ *)
Definition reH1 : list (char -> bool) := [lit HASH; lit SPACE].
Definition reH2 : list (char -> bool) := [lit HASH; lit HASH; lit SPACE].
Definition reH3 : list (char -> bool) := [lit HASH; lit HASH; lit HASH; lit SPACE].
Definition reBullet : list (char -> bool) :=
  [fun d => N.eqb d DASH || N.eqb d STAR; lit SPACE].

(* --------------------------------------------------------------------- *)
(* markdownToDocRequests, first loop: one segment per line                *)
(* --------------------------------------------------------------------- *)

(* The body of [for (const line of lines)]: the segment pushed for
   [line]. *)
Definition classifyLine (line : jsstring) : DocSegment :=
  let h1 := regexMatch reH1 line in
  let h2 := regexMatch reH2 line in
  let h3 := regexMatch reH3 line in
  let bulletMatch := regexMatch reBullet line in
  match h1 with
  | Some h1_1 => {| inlines := [plainRun h1_1]; style := HEADING_1; bullet := None |}
  | None =>
  match h2 with
  | Some h2_1 => {| inlines := [plainRun h2_1]; style := HEADING_2; bullet := None |}
  | None =>
  match h3 with
  | Some h3_1 => {| inlines := [plainRun h3_1]; style := HEADING_3; bullet := None |}
  | None =>
  match bulletMatch with
  | Some bullet_1 =>
      {| inlines := parseInline bullet_1; style := NORMAL_TEXT; bullet := Some true |}
  | None =>
      if isEmpty (trim line) then
        {| inlines := [plainRun []]; style := NORMAL_TEXT; bullet := None |}
      else
        {| inlines := parseInline line; style := NORMAL_TEXT; bullet := None |}
  end end end end.

(* [segments] after the first loop. *)
Definition segments (markdown : jsstring) : list DocSegment :=
  map classifyLine (split NEWLINE markdown).

(* --------------------------------------------------------------------- *)
(* Second loop: the text buffer and the style ranges                      *)
(* --------------------------------------------------------------------- *)

(* [textStyle: { bold: inline.bold, italic: inline.italic }]: an object
   is its list of own properties, in insertion order; a property whose
   value is [undefined] is still a property. *)
Definition TextStyle := list (string * option bool).

Record StyleRange : Type := {
  startIndex : nat;
  endIndex : nat;
  paragraphStyle : option NamedStyle;
  textStyle : option TextStyle;
  rangeBullet : option bool
}.

(* [segment.inlines.map((i) => i.text).join("")] *)
Definition joinTexts (runs : list InlineSegment) : jsstring :=
  flat_map text runs.

(* [segText] *)
Definition segText (segment : DocSegment) : jsstring :=
  joinTexts (inlines segment) ++ [NEWLINE].

(* One step of [for (const inline of segment.inlines)] on the pair
   [(inlineIndex, styleRanges)]. *)
Definition inlineStep (st : nat * list StyleRange) (inline : InlineSegment)
  : nat * list StyleRange :=
  let inlineIndex := fst st in
  let styleRanges := snd st in
  (inlineIndex + length (text inline),
   if truthy (bold inline) || truthy (italic inline) then
     styleRanges ++
       [{| startIndex := inlineIndex;
           endIndex := inlineIndex + length (text inline);
           paragraphStyle := None;
           textStyle := Some [("bold"%string, bold inline); ("italic"%string, italic inline)];
           rangeBullet := None |}]
   else styleRanges).

Record LayoutState : Type := {
  fullText : jsstring;
  currentIndex : nat;
  styleRanges : list StyleRange
}.

Definition isNormalText (s : NamedStyle) : bool :=
  match s with
  | NORMAL_TEXT => true
  | _ => false
  end.

(* One step of [for (const segment of segments)]. *)
Definition layoutStep (st : LayoutState) (segment : DocSegment) : LayoutState :=
  let segStart := currentIndex st in
  let segText := segText segment in
  let ranges1 :=
    if negb (isNormalText (style segment)) || truthy (bullet segment) then
      styleRanges st ++
        [{| startIndex := segStart;
            endIndex := segStart + length segText;
            paragraphStyle := if truthy (bullet segment) then None else Some (style segment);
            textStyle := None;
            rangeBullet := bullet segment |}]
    else styleRanges st in
  {| fullText := fullText st ++ segText;
     currentIndex := currentIndex st + length segText;
     styleRanges := snd (fold_left inlineStep (inlines segment) (segStart, ranges1)) |}.

Definition layout (segs : list DocSegment) : LayoutState :=
  fold_left layoutStep segs {| fullText := []; currentIndex := 1; styleRanges := [] |}.

(* --------------------------------------------------------------------- *)
(* Third part: the requests                                               *)
(* --------------------------------------------------------------------- *)

Definition namedStyleType (s : NamedStyle) : string :=
  match s with
  | HEADING_1 => "HEADING_1"
  | HEADING_2 => "HEADING_2"
  | HEADING_3 => "HEADING_3"
  | NORMAL_TEXT => "NORMAL_TEXT"
  end.

Inductive Request : Type :=
| insertText (index : nat) (content : jsstring)
| updateParagraphStyle (rangeStart rangeEnd : nat) (named : string) (fields : string)
| createParagraphBullets (rangeStart rangeEnd : nat) (bulletPreset : string)
| updateTextStyle (rangeStart rangeEnd : nat) (ts : TextStyle) (fields : string).

(* [Object.keys(o).join(",")] *)
Definition keysJoined (o : TextStyle) : string :=
  String.concat "," (map fst o).

(* Truthiness of a string-valued optional property: every style name is a
   non-empty string, so only [undefined] is falsy. *)
Definition truthyStyle (s : option NamedStyle) : bool :=
  match s with
  | Some n => negb (String.eqb (namedStyleType n) "")
  | None => false
  end.

(* The body of [for (const range of styleRanges)]: the requests pushed
   for one range. *)
Definition rangeRequests (range : StyleRange) : list Request :=
  (match paragraphStyle range with
   | Some n =>
       if truthyStyle (paragraphStyle range) then
         [updateParagraphStyle (startIndex range) (endIndex range)
            (namedStyleType n) "namedStyleType"]
       else []
   | None => []
   end)
  ++ (if truthy (rangeBullet range) then
        [createParagraphBullets (startIndex range) (endIndex range)
           "BULLET_DISC_CIRCLE_SQUARE"]
      else [])
  ++ (match textStyle range with
      | Some o => [updateTextStyle (startIndex range) (endIndex range) o (keysJoined o)]
      | None => []
      end).

Definition markdownToDocRequests (markdown : jsstring) : list Request :=
  let st := layout (segments markdown) in
  (if nonEmpty (fullText st) then [insertText 1 (fullText st)] else [])
  ++ flat_map rangeRequests (styleRanges st).

(* --------------------------------------------------------------------- *)
(* Vocabulary of the specification                                        *)
(* --------------------------------------------------------------------- *)

(* The style marker characters of the dialect: asterisk and backtick. *)
Definition isMarker (c : char) : bool := N.eqb c STAR || N.eqb c BACKTICK.

(* [markersDeleted s t]: [t] is [s] with some marker characters deleted,
   and nothing else changed. *)
Inductive markersDeleted : jsstring -> jsstring -> Prop :=
| md_nil : markersDeleted [] []
| md_keep (c : char) (s t : jsstring) :
    markersDeleted s t -> markersDeleted (c :: s) (c :: t)
| md_drop (c : char) (s t : jsstring) :
    isMarker c = true -> markersDeleted s t -> markersDeleted (c :: s) t.

(* [stopsWithin stop s]: the condition [stop] holds at some position of
   [s], that is, a scan over [s] exits before the end. *)
Fixpoint stopsWithin (stop : jsstring -> bool) (s : jsstring) : bool :=
  match s with
  | [] => false
  | _ :: s' => stop s || stopsWithin stop s'
  end.

(* The visible characters of a text, by the marker rules of the inline
   dialect, as a scan with four modes.  Outside a span a pair of asterisks
   opens a bold span, an asterisk not followed by another opens an italic
   span, a backtick opens a code span, and the opening marker is dropped.
   A bold span ends at the next pair of asterisks, an italic span at the
   next asterisk, a code span at the next backtick, and the closing
   marker is dropped.  Every other character is kept, and so is an
   asterisk or backtick that is not the closing marker of the span it is
   in. *)
Inductive scanMode : Type :=
| Plain
| InBold
| InItalic
| InCode.

Fixpoint visibleText (m : scanMode) (s : jsstring) {struct s} : jsstring :=
  match s with
  | [] => []
  | c :: s' =>
      match m with
      | Plain =>
          if N.eqb c STAR then
            match s' with
            | d :: s'' =>
                if N.eqb d STAR then visibleText InBold s''
                else visibleText InItalic s'
            | [] => visibleText InItalic s'
            end
          else if N.eqb c BACKTICK then visibleText InCode s'
          else c :: visibleText Plain s'
      | InBold =>
          if N.eqb c STAR then
            match s' with
            | d :: s'' =>
                if N.eqb d STAR then visibleText Plain s''
                else c :: visibleText InBold s'
            | [] => c :: visibleText InBold s'
            end
          else c :: visibleText InBold s'
      | InItalic =>
          if N.eqb c STAR then visibleText Plain s' else c :: visibleText InItalic s'
      | InCode =>
          if N.eqb c BACKTICK then visibleText Plain s' else c :: visibleText InCode s'
      end
  end.

(* "All style markers removed", read literally: every asterisk and every
   backtick is taken out. *)
Definition stripMarkers (s : jsstring) : jsstring :=
  filter (fun c => negb (isMarker c)) s.

(* The matched inline content of a line: the text the classifier hands
   on for the line, before any inline parsing.  It is the capture group of
   the first pattern that matches, nothing for a blank line, and the whole
   line otherwise. *)
Definition inlineContent (line : jsstring) : jsstring :=
  match regexMatch reH1 line with
  | Some h1_1 => h1_1
  | None =>
  match regexMatch reH2 line with
  | Some h2_1 => h2_1
  | None =>
  match regexMatch reH3 line with
  | Some h3_1 => h3_1
  | None =>
  match regexMatch reBullet line with
  | Some bullet_1 => bullet_1
  | None => if isEmpty (trim line) then [] else line
  end end end end.

Definition isInsertText (r : Request) : bool :=
  match r with
  | insertText _ _ => true
  | _ => false
  end.

(* What holds of every recorded range: its bounds are ordered, a
   paragraph or bullet range is not empty, and a text style object has
   the two properties [bold] and [italic], in this order. *)
Definition rangeInvariant (r : StyleRange) : Prop :=
  startIndex r <= endIndex r /\
  (textStyle r = None -> startIndex r < endIndex r) /\
  (forall o, textStyle r = Some o -> map fst o = ["bold"%string; "italic"%string]).

(* What holds of a text style request: its style object has the two
   properties [bold] and [italic] and its field mask names both. *)
Definition namesBothFlags (r : Request) : Prop :=
  match r with
  | updateTextStyle _ _ o fields =>
      map fst o = ["bold"%string; "italic"%string] /\ fields = "bold,italic"%string
  | _ => True
  end.

(* --------------------------------------------------------------------- *)
(* google.ts: parseDocId and the requests of updateDoc                    *)
(* --------------------------------------------------------------------- *)

Definition SLASH : char := 47%N.

(* The character class [a-zA-Z0-9_-]. *)
Definition idChar (c : char) : bool :=
  ((N.leb 97 c && N.leb c 122) || (N.leb 65 c && N.leb c 90)
   || (N.leb 48 c && N.leb c 57) || N.eqb c 95 || N.eqb c 45)%N.

(* One attempt of /\/d\/([a-zA-Z0-9_-]+)/ at the start of [s]: capture
   group 1, the longest run of id characters after "/d/", which must not
   be empty. *)
Definition matchDocIdAt (s : jsstring) : option jsstring :=
  match matchHead [lit SLASH; lit 100%N; lit SLASH] s with
  | None => None
  | Some after =>
      match takeWhile idChar after with
      | [] => None
      | c :: cs => Some (c :: cs)
      end
  end.

(* [input.match(/\/d\/([a-zA-Z0-9_-]+)/)]: the pattern is not anchored,
   so the attempts go from left to right and the first success wins. *)
Fixpoint matchDocId (s : jsstring) : option jsstring :=
  match s with
  | [] => None
  | _ :: s' =>
      match matchDocIdAt s with
      | Some m1 => Some m1
      | None => matchDocId s'
      end
  end.

(* [match ? match[1] : input] *)
Definition parseDocId (input : jsstring) : jsstring :=
  match matchDocId input with
  | Some m1 => m1
  | None => input
  end.

(* The url that createDoc and listDocs build for a document id. *)
Definition docUrl (docId : jsstring) : jsstring :=
  str "https://docs.google.com/document/d/" ++ docId ++ str "/edit".

(* The requests of updateDoc: the ones of the Markdown compiler, and
   before them the deletion of the old body. *)
Inductive UpdateRequest : Type :=
| deleteContentRange (rangeStart rangeEnd : nat)
| contentRequest (r : Request).

(* [doc.data.body?.content?.at(-1)?.endIndex ?? 2], where [lastEndIndex]
   is [None] when the chain gives [undefined]. *)
Definition bodyEndIndex (lastEndIndex : option nat) : nat :=
  match lastEndIndex with
  | Some n => n
  | None => 2
  end.

(* The [requests] array that updateDoc hands to batchUpdate. *)
Definition updateDocRequests (lastEndIndex : option nat) (content : jsstring)
  : list UpdateRequest :=
  let endIndex := bodyEndIndex lastEndIndex in
  (if 2 <? endIndex then [deleteContentRange 1 (endIndex - 1)] else [])
  ++ map contentRequest (markdownToDocRequests content).

(* The decision of createDoc: the batch it sends, [None] when the guard
   [requests.length > 0] fails. *)
Definition createDocBatch (content : jsstring) : option (list Request) :=
  let requests := markdownToDocRequests content in
  if 0 <? length requests then Some requests else None.

(* --------------------------------------------------------------------- *)
(* Vocabulary for the runs of a line                                      *)
(* --------------------------------------------------------------------- *)

(* A run without style: the layout loop records no range for it. *)
Definition isPlain (run : InlineSegment) : bool :=
  negb (truthy (bold run) || truthy (italic run)).

(* The three shapes of run that the inline parser builds; a plain run
   always has text. *)
Definition wellFormedRun (run : InlineSegment) : Prop :=
  (exists t, t <> [] /\ run = plainRun t) \/
  (exists t, run = boldRun t) \/
  (exists t, run = italicRun t).

(* No two neighbouring runs are both plain. *)
Fixpoint noAdjacentPlain (runs : list InlineSegment) : bool :=
  match runs with
  | [] => true
  | run :: runs' =>
      match runs' with
      | [] => true
      | next :: _ => negb (isPlain run && isPlain next) && noAdjacentPlain runs'
      end
  end.

(* The segment of a blank line: [{ inlines: [{ text: "" }], style:
   "NORMAL_TEXT" }]. *)
Definition blankSegment : DocSegment :=
  {| inlines := [plainRun []]; style := NORMAL_TEXT; bullet := None |}.

(* --------------------------------------------------------------------- *)
(* The recorded ranges as a function of the start index                   *)
(* --------------------------------------------------------------------- *)
(* The second loop threads [currentIndex] and [styleRanges] through its
   iterations.  The ranges it appends depend only on the index at which a
   segment starts; the functions below give them by recursion on the runs
   and on the segments, and [layout_fold_ranges] shows that the loop
   computes exactly these. *)

(* The range pushed for a run that starts at [i], if any. *)
Definition inlineRange (i : nat) (run : InlineSegment) : list StyleRange :=
  if truthy (bold run) || truthy (italic run) then
    [{| startIndex := i;
        endIndex := i + length (text run);
        paragraphStyle := None;
        textStyle := Some [("bold"%string, bold run); ("italic"%string, italic run)];
        rangeBullet := None |}]
  else [].

Fixpoint inlineRangesFrom (i : nat) (runs : list InlineSegment) : list StyleRange :=
  match runs with
  | [] => []
  | run :: runs' => inlineRange i run ++ inlineRangesFrom (i + length (text run)) runs'
  end.

(* The paragraph or bullet range pushed for a segment that starts at [i],
   if any. *)
Definition blockRange (i : nat) (segment : DocSegment) : list StyleRange :=
  if negb (isNormalText (style segment)) || truthy (bullet segment) then
    [{| startIndex := i;
        endIndex := i + length (segText segment);
        paragraphStyle := if truthy (bullet segment) then None else Some (style segment);
        textStyle := None;
        rangeBullet := bullet segment |}]
  else [].

Definition segmentRanges (i : nat) (segment : DocSegment) : list StyleRange :=
  blockRange i segment ++ inlineRangesFrom i (inlines segment).

Fixpoint rangesFrom (i : nat) (segs : list DocSegment) : list StyleRange :=
  match segs with
  | [] => []
  | segment :: segs' =>
      segmentRanges i segment ++ rangesFrom (i + length (segText segment)) segs'
  end.

(* A range that carries a text style. *)
Definition isInline (r : StyleRange) : bool :=
  match textStyle r with
  | Some _ => true
  | None => false
  end.

(* [chain lo hi rs]: the ranges [rs] lie between [lo] and [hi], each with
   its bounds in order and starting no earlier than the one before it
   ends. *)
Fixpoint chain (lo hi : nat) (rs : list StyleRange) : Prop :=
  match rs with
  | [] => lo <= hi
  | r :: rs' =>
      lo <= startIndex r /\ startIndex r <= endIndex r /\ chain (endIndex r) hi rs'
  end.

(* [s.substring(a, b)] for [a <= b]. *)
Definition substring (s : jsstring) (a b : nat) : jsstring :=
  firstn (b - a) (skipn a s).

(* What a request addresses: the insertion its index, a style request
   its range, which has to lie inside [1, hi]. *)
Definition inBounds (hi : nat) (req : Request) : Prop :=
  match req with
  | insertText i _ => i = 1
  | updateParagraphStyle s e _ _ => 1 <= s /\ s <= e /\ e <= hi
  | createParagraphBullets s e _ => 1 <= s /\ s <= e /\ e <= hi
  | updateTextStyle s e _ _ => 1 <= s /\ s <= e /\ e <= hi
  end.

(* Where a recorded range comes from: a paragraph or bullet range comes
   from a segment and stands for its rendered text; a text style range
   comes from a run of a segment, stands for the run's text and carries
   the run's two flags. *)
Inductive rangeSource (segs : list DocSegment) (r : StyleRange) (t : jsstring) : Prop :=
| source_block (seg : DocSegment) :
    In seg segs ->
    t = segText seg ->
    textStyle r = None ->
    paragraphStyle r = (if truthy (bullet seg) then None else Some (style seg)) ->
    rangeBullet r = bullet seg ->
    rangeSource segs r t
| source_inline (seg : DocSegment) (run : InlineSegment) :
    In seg segs ->
    In run (inlines seg) ->
    t = text run ->
    textStyle r = Some [("bold"%string, bold run); ("italic"%string, italic run)] ->
    paragraphStyle r = None ->
    rangeBullet r = None ->
    rangeSource segs r t.

(* The range [r] addresses the text [t] in the buffer [buffer], whose
   first character has index 1. *)
Definition addresses (buffer : jsstring) (r : StyleRange) (t : jsstring) : Prop :=
  1 <= startIndex r /\
  endIndex r = startIndex r + length t /\
  substring buffer (startIndex r - 1) (endIndex r - 1) = t.

(* The kinds of style request. *)
Definition isParagraphStyleRequest (req : Request) : bool :=
  match req with
  | updateParagraphStyle _ _ _ _ => true
  | _ => false
  end.

Definition isBulletsRequest (req : Request) : bool :=
  match req with
  | createParagraphBullets _ _ _ => true
  | _ => false
  end.

Definition isTextStyleRequest (req : Request) : bool :=
  match req with
  | updateTextStyle _ _ _ _ => true
  | _ => false
  end.

(* A paragraph style request names one of the three heading styles. *)
Definition namesHeading (req : Request) : Prop :=
  match req with
  | updateParagraphStyle _ _ named _ =>
      named = "HEADING_1"%string \/ named = "HEADING_2"%string
      \/ named = "HEADING_3"%string
  | _ => True
  end.

(* A line that passes through unchanged: no asterisk or backtick in it,
   no hash or dash at its start, and either empty or not made of white
   space only. *)
Definition plainLine (line : jsstring) : bool :=
  forallb (fun c => negb (isMarker c)) line
  && match line with
     | [] => true
     | c :: _ =>
         negb (N.eqb c HASH) && negb (N.eqb c DASH) && negb (forallb whiteSpace line)
     end.

(* A range and a request moved [k] characters to the right. *)
Definition shiftRange (k : nat) (r : StyleRange) : StyleRange :=
  {| startIndex := startIndex r + k;
     endIndex := endIndex r + k;
     paragraphStyle := paragraphStyle r;
     textStyle := textStyle r;
     rangeBullet := rangeBullet r |}.

Definition shiftRequest (k : nat) (req : Request) : Request :=
  match req with
  | insertText i content => insertText (i + k) content
  | updateParagraphStyle s e named fields => updateParagraphStyle (s + k) (e + k) named fields
  | createParagraphBullets s e preset => createParagraphBullets (s + k) (e + k) preset
  | updateTextStyle s e o fields => updateTextStyle (s + k) (e + k) o fields
  end.

(* --------------------------------------------------------------------- *)
(* parseInline: the loop                                                  *)
(* --------------------------------------------------------------------- *)

(* One iteration of the loop, with the cursor arithmetic carried out. *)
Lemma parseInline_loop_cons (c : char) (rest' current : jsstring)
      (result : list InlineSegment) :
  parseInline_loop (c :: rest') current result
  = if atBold (c :: rest') then
      parseInline_loop
        (skipn 2 (snd (scan atBold (skipn 1 rest'))))
        []
        (pushCurrent current result ++ [boldRun (fst (scan atBold (skipn 1 rest')))])
    else if atStar (c :: rest') && negb (charIs STAR (charAt rest' 0)) then
      parseInline_loop
        (skipn 1 (snd (scan atStar rest')))
        []
        (pushCurrent current result ++ [italicRun (fst (scan atStar rest'))])
    else if atTick (c :: rest') then
      parseInline_loop
        (skipn 1 (snd (scan atTick rest')))
        []
        (pushCurrent current result ++ [italicRun (fst (scan atTick rest'))])
    else
      parseInline_loop rest' (current ++ [c]) result.
Proof. now rewrite parseInline_loop_equation_2. Qed.

(* Induction along the iterations of the loop: each case is one branch of
   the loop body, with the property assumed at the suffix where the next
   iteration starts. *)
Lemma parseInline_rest_ind (P : jsstring -> Prop) :
  P [] ->
  (forall c rest',
     atBold (c :: rest') = true ->
     P (skipn 2 (snd (scan atBold (skipn 1 rest')))) -> P (c :: rest')) ->
  (forall c rest',
     atBold (c :: rest') = false ->
     atStar (c :: rest') && negb (charIs STAR (charAt rest' 0)) = true ->
     P (skipn 1 (snd (scan atStar rest'))) -> P (c :: rest')) ->
  (forall c rest',
     atBold (c :: rest') = false ->
     atStar (c :: rest') && negb (charIs STAR (charAt rest' 0)) = false ->
     atTick (c :: rest') = true ->
     P (skipn 1 (snd (scan atTick rest'))) -> P (c :: rest')) ->
  (forall c rest',
     atBold (c :: rest') = false ->
     atStar (c :: rest') && negb (charIs STAR (charAt rest' 0)) = false ->
     atTick (c :: rest') = false ->
     P rest' -> P (c :: rest')) ->
  forall rest, P rest.
Proof.
  intros Hnil Hbold Hstar Htick Hchar rest.
  remember (length rest) as n eqn:Hn.
  assert (Hle : length rest <= n) by lia. clear Hn. revert rest Hle.
  induction n as [|n IH]; intros [|c rest'] Hle; simpl in Hle; try exact Hnil; [lia|].
  destruct (atBold (c :: rest')) eqn:Eb.
  { apply Hbold; [exact Eb|]. apply IH.
    pose proof (skipn_length_le 2 (snd (scan atBold (skipn 1 rest')))).
    pose proof (scan_length atBold (skipn 1 rest')).
    pose proof (skipn_length_le 1 rest'). lia. }
  destruct (atStar (c :: rest') && negb (charIs STAR (charAt rest' 0))) eqn:Es.
  { apply Hstar; [exact Eb|exact Es|]. apply IH.
    pose proof (skipn_length_le 1 (snd (scan atStar rest'))).
    pose proof (scan_length atStar rest'). lia. }
  destruct (atTick (c :: rest')) eqn:Et.
  { apply Htick; [exact Eb|exact Es|exact Et|]. apply IH.
    pose proof (skipn_length_le 1 (snd (scan atTick rest'))).
    pose proof (scan_length atTick rest'). lia. }
  apply Hchar; [exact Eb|exact Es|exact Et|]. apply IH. lia.
Qed.

Lemma joinTexts_app (a b : list InlineSegment) :
  joinTexts (a ++ b) = joinTexts a ++ joinTexts b.
Proof. unfold joinTexts. apply flat_map_app. Qed.

Lemma joinTexts_pushCurrent (current : jsstring) (result : list InlineSegment) :
  joinTexts (pushCurrent current result) = joinTexts result ++ current.
Proof.
  unfold pushCurrent. destruct current as [|c cs]; simpl.
  - now rewrite app_nil_r.
  - rewrite joinTexts_app. simpl. now rewrite app_nil_r.
Qed.

Lemma scan_app (stop : jsstring -> bool) (rest : jsstring) :
  fst (scan stop rest) ++ snd (scan stop rest) = rest.
Proof.
  induction rest as [|c rest' IH]; simpl; [reflexivity|].
  destruct (stop (c :: rest')); simpl; [reflexivity|]. now rewrite IH.
Qed.

Lemma scan_exit (stop : jsstring -> bool) (rest : jsstring) :
  snd (scan stop rest) = [] \/ stop (snd (scan stop rest)) = true.
Proof.
  induction rest as [|c rest' IH]; simpl; [now left|].
  destruct (stop (c :: rest')) eqn:E; simpl; [now right|exact IH].
Qed.

Lemma scan_to_end (stop : jsstring -> bool) (s : jsstring) :
  stopsWithin stop s = false -> scan stop s = (s, []).
Proof.
  induction s as [|c s' IH]; simpl; [reflexivity|].
  intros H. apply orb_false_iff in H as [H1 H2].
  rewrite H1, (IH H2). reflexivity.
Qed.

Lemma atStar_cons (c : char) (s : jsstring) : atStar (c :: s) = N.eqb c STAR.
Proof. reflexivity. Qed.

Lemma atTick_cons (c : char) (s : jsstring) : atTick (c :: s) = N.eqb c BACKTICK.
Proof. reflexivity. Qed.

Lemma atBold_cons (c : char) (s : jsstring) :
  atBold (c :: s) = N.eqb c STAR && atStar s.
Proof. reflexivity. Qed.

Lemma atStar_inv (s : jsstring) :
  atStar s = true -> exists s', s = STAR :: s'.
Proof.
  destruct s as [|c s']; [discriminate|]. rewrite atStar_cons.
  intros H. apply N.eqb_eq in H. subst. now exists s'.
Qed.

Lemma atTick_inv (s : jsstring) :
  atTick s = true -> exists s', s = BACKTICK :: s'.
Proof.
  destruct s as [|c s']; [discriminate|]. rewrite atTick_cons.
  intros H. apply N.eqb_eq in H. subst. now exists s'.
Qed.

Lemma atBold_inv (s : jsstring) :
  atBold s = true -> exists s', s = STAR :: STAR :: s'.
Proof.
  destruct s as [|c s']; [discriminate|]. rewrite atBold_cons.
  intros H. apply andb_true_iff in H as [H1 H2].
  apply N.eqb_eq in H1. apply atStar_inv in H2 as [s'' ->]. subst.
  now exists s''.
Qed.

Lemma markersDeleted_refl (s : jsstring) : markersDeleted s s.
Proof. induction s; constructor; assumption. Qed.

Lemma markersDeleted_app (s1 t1 s2 t2 : jsstring) :
  markersDeleted s1 t1 -> markersDeleted s2 t2 ->
  markersDeleted (s1 ++ s2) (t1 ++ t2).
Proof.
  intros H1 H2. induction H1; simpl; [assumption| |]; constructor; assumption.
Qed.

Lemma markersDeleted_length (s t : jsstring) :
  markersDeleted s t -> length t <= length s.
Proof. induction 1; simpl; lia. Qed.

Lemma markersDeleted_plain (s t : jsstring) :
  markersDeleted s t -> forallb (fun c => negb (isMarker c)) s = true -> t = s.
Proof.
  induction 1 as [|c s t H IH|c s t Hc H IH]; simpl; intros Hp.
  - reflexivity.
  - apply andb_true_iff in Hp as [_ Hp]. now rewrite (IH Hp).
  - rewrite Hc in Hp. discriminate.
Qed.

Lemma markersDeleted_In (s t : jsstring) (c : char) :
  markersDeleted s t -> In c t -> In c s.
Proof.
  induction 1 as [|d s t H IH|d s t Hd H IH]; simpl; intros Hin.
  - assumption.
  - destruct Hin as [->|Hin]; [now left|right; auto].
  - right; auto.
Qed.

(* What is left of the line after a scan and its closing marker: the
   suffix at the exit of the scan, with the [k] characters of the closing
   marker skipped, is that suffix with marker characters deleted. *)
Lemma markersDeleted_skip_star (after t : jsstring) :
  after = [] \/ atStar after = true ->
  markersDeleted (skipn 1 after) t -> markersDeleted after t.
Proof.
  intros [->|H] Ht; [exact Ht|].
  apply atStar_inv in H as [s' ->]. simpl in Ht. now apply md_drop.
Qed.

Lemma markersDeleted_skip_tick (after t : jsstring) :
  after = [] \/ atTick after = true ->
  markersDeleted (skipn 1 after) t -> markersDeleted after t.
Proof.
  intros [->|H] Ht; [exact Ht|].
  apply atTick_inv in H as [s' ->]. simpl in Ht. now apply md_drop.
Qed.

Lemma markersDeleted_skip_bold (after t : jsstring) :
  after = [] \/ atBold after = true ->
  markersDeleted (skipn 2 after) t -> markersDeleted after t.
Proof.
  intros [->|H] Ht; [exact Ht|].
  apply atBold_inv in H as [s' ->]. simpl in Ht.
  apply md_drop; [reflexivity|]. now apply md_drop.
Qed.

Lemma markersDeleted_scan (stop : jsstring -> bool) (k : nat) (r t : jsstring) :
  (forall after u, after = [] \/ stop after = true ->
     markersDeleted (skipn k after) u -> markersDeleted after u) ->
  markersDeleted (skipn k (snd (scan stop r))) t ->
  markersDeleted r (fst (scan stop r) ++ t).
Proof.
  intros Hskip Ht. rewrite <- (scan_app stop r) at 1.
  apply markersDeleted_app; [apply markersDeleted_refl|].
  apply Hskip; [apply scan_exit|exact Ht].
Qed.

(* The loop invariant of [parseInline] on the joined texts: from a state
   [(rest, current, result)] the loop returns runs whose texts, joined,
   are the texts already pushed, the pending accumulator, and the rest
   of the line with some marker characters deleted. *)
Lemma parseInline_loop_texts (n : nat) :
  forall rest : jsstring, length rest <= n ->
  forall (current : jsstring) (result : list InlineSegment),
  exists t : jsstring,
    markersDeleted rest t /\
    joinTexts (parseInline_loop rest current result)
    = joinTexts result ++ current ++ t.
Proof.
  induction n as [|n IH]; intros rest Hlen current result.
  - destruct rest; [|simpl in Hlen; lia].
    exists []. split; [constructor|].
    rewrite parseInline_loop_equation_1, joinTexts_pushCurrent.
    now rewrite app_nil_r.
  - destruct rest as [|c rest'].
    { exists []. split; [constructor|].
      rewrite parseInline_loop_equation_1, joinTexts_pushCurrent.
      now rewrite app_nil_r. }
    simpl in Hlen. rewrite parseInline_loop_cons.
    destruct (atBold (c :: rest')) eqn:Hb.
    { apply atBold_inv in Hb as [r Hr]. injection Hr as -> ->.
      change (skipn 1 (STAR :: r)) with r.
      destruct (IH (skipn 2 (snd (scan atBold r)))) with (current := @nil char)
        (result := pushCurrent current result ++ [boldRun (fst (scan atBold r))])
        as [t [Ht Heq]].
      { pose proof (skipn_length_le 2 (snd (scan atBold r))).
        pose proof (scan_length atBold r). simpl in Hlen. lia. }
      exists (fst (scan atBold r) ++ t). split.
      - apply md_drop; [reflexivity|]. apply md_drop; [reflexivity|].
        apply markersDeleted_scan with (k := 2); [|exact Ht].
        apply markersDeleted_skip_bold.
      - rewrite Heq, joinTexts_app, joinTexts_pushCurrent. simpl.
        rewrite app_nil_r, <- !app_assoc. reflexivity. }
    destruct (atStar (c :: rest') && negb (charIs STAR (charAt rest' 0))) eqn:Hi.
    { apply andb_true_iff in Hi as [Hi _].
      rewrite atStar_cons in Hi. apply N.eqb_eq in Hi. subst c.
      destruct (IH (skipn 1 (snd (scan atStar rest')))) with (current := @nil char)
        (result := pushCurrent current result ++ [italicRun (fst (scan atStar rest'))])
        as [t [Ht Heq]].
      { pose proof (skipn_length_le 1 (snd (scan atStar rest'))).
        pose proof (scan_length atStar rest'). lia. }
      exists (fst (scan atStar rest') ++ t). split.
      - apply md_drop; [reflexivity|].
        apply markersDeleted_scan with (k := 1); [|exact Ht].
        apply markersDeleted_skip_star.
      - rewrite Heq, joinTexts_app, joinTexts_pushCurrent. simpl.
        rewrite app_nil_r, <- !app_assoc. reflexivity. }
    destruct (atTick (c :: rest')) eqn:Hc.
    { rewrite atTick_cons in Hc. apply N.eqb_eq in Hc. subst c.
      destruct (IH (skipn 1 (snd (scan atTick rest')))) with (current := @nil char)
        (result := pushCurrent current result ++ [italicRun (fst (scan atTick rest'))])
        as [t [Ht Heq]].
      { pose proof (skipn_length_le 1 (snd (scan atTick rest'))).
        pose proof (scan_length atTick rest'). lia. }
      exists (fst (scan atTick rest') ++ t). split.
      - apply md_drop; [reflexivity|].
        apply markersDeleted_scan with (k := 1); [|exact Ht].
        apply markersDeleted_skip_tick.
      - rewrite Heq, joinTexts_app, joinTexts_pushCurrent. simpl.
        rewrite app_nil_r, <- !app_assoc. reflexivity. }
    destruct (IH rest' ltac:(lia) (current ++ [c]) result) as [t [Ht Heq]].
    exists (c :: t). split; [now apply md_keep|].
    rewrite Heq, <- !app_assoc. reflexivity.
Qed.

Lemma parseInline_texts (line : jsstring) :
  markersDeleted line (joinTexts (parseInline line)).
Proof.
  destruct (parseInline_loop_texts (n := length line) line (le_n _) [] [])
    as [t [Ht Heq]].
  unfold parseInline. rewrite Heq. exact Ht.
Qed.

(* The three inner loops against the modes of [visibleText]: a span
   shows the scanned characters, then what follows the closing marker. *)
Lemma visibleText_bold (r : jsstring) :
  visibleText InBold r
  = fst (scan atBold r) ++ visibleText Plain (skipn 2 (snd (scan atBold r))).
Proof.
  induction r as [|c r' IH]; [reflexivity|].
  simpl scan. destruct (atBold (c :: r')) eqn:E.
  - apply atBold_inv in E as [r'' E]. injection E as -> ->. reflexivity.
  - simpl fst. simpl snd. rewrite <- app_comm_cons, <- IH.
    rewrite atBold_cons in E. simpl.
    destruct (N.eqb c STAR); [|reflexivity].
    destruct r' as [|d r'']; [reflexivity|].
    rewrite atStar_cons in E. simpl in E. now rewrite E.
Qed.

Lemma visibleText_italic (r : jsstring) :
  visibleText InItalic r
  = fst (scan atStar r) ++ visibleText Plain (skipn 1 (snd (scan atStar r))).
Proof.
  induction r as [|c r' IH]; [reflexivity|].
  simpl scan. rewrite atStar_cons. simpl visibleText.
  destruct (N.eqb c STAR); [reflexivity|].
  rewrite IH. reflexivity.
Qed.

Lemma visibleText_code (r : jsstring) :
  visibleText InCode r
  = fst (scan atTick r) ++ visibleText Plain (skipn 1 (snd (scan atTick r))).
Proof.
  induction r as [|c r' IH]; [reflexivity|].
  simpl scan. rewrite atTick_cons. simpl visibleText.
  destruct (N.eqb c BACKTICK); [reflexivity|].
  rewrite IH. reflexivity.
Qed.

(* The loop of [parseInline] against [visibleText]: from a state
   [(rest, current, result)] the joined texts of the returned runs are
   the texts already pushed, the pending accumulator, and the visible
   characters of the rest of the line. *)
Lemma parseInline_loop_visible (rest : jsstring) :
  forall (current : jsstring) (result : list InlineSegment),
    joinTexts (parseInline_loop rest current result)
    = joinTexts result ++ current ++ visibleText Plain rest.
Proof.
  induction rest as [|c rest' Eb IH|c rest' Eb Es IH|c rest' Eb Es Et IH|c rest' Eb Es Et IH]
    using parseInline_rest_ind; intros current result.
  - rewrite parseInline_loop_equation_1, joinTexts_pushCurrent. simpl.
    now rewrite app_nil_r.
  - rewrite parseInline_loop_cons, Eb, IH, joinTexts_app, joinTexts_pushCurrent.
    apply atBold_inv in Eb as [r E]. injection E as -> ->.
    change (skipn 1 (STAR :: r)) with r.
    change (visibleText Plain (STAR :: STAR :: r)) with (visibleText InBold r).
    rewrite visibleText_bold. simpl. now rewrite app_nil_r, <- !app_assoc.
  - rewrite parseInline_loop_cons, Eb, Es, IH, joinTexts_app, joinTexts_pushCurrent.
    apply andb_true_iff in Es as [Ec En].
    rewrite atStar_cons in Ec. apply N.eqb_eq in Ec. subst c.
    apply negb_true_iff in En.
    assert (E : visibleText Plain (STAR :: rest') = visibleText InItalic rest').
    { destruct rest' as [|d r'']; [reflexivity|]. simpl in En. simpl. now rewrite En. }
    rewrite E, visibleText_italic. simpl. now rewrite app_nil_r, <- !app_assoc.
  - rewrite parseInline_loop_cons, Eb, Es, Et, IH, joinTexts_app, joinTexts_pushCurrent.
    rewrite atTick_cons in Et. apply N.eqb_eq in Et. subst c.
    change (visibleText Plain (BACKTICK :: rest')) with (visibleText InCode rest').
    rewrite visibleText_code. simpl. now rewrite app_nil_r, <- !app_assoc.
  - rewrite parseInline_loop_cons, Eb, Es, Et, IH.
    rewrite atTick_cons in Et.
    assert (Ec : N.eqb c STAR = false).
    { rewrite atBold_cons in Eb. rewrite atStar_cons in Es.
      destruct (N.eqb c STAR); [|reflexivity]. cbn [andb] in Eb, Es.
      unfold atStar in Eb. rewrite Eb in Es. discriminate. }
    simpl. rewrite Ec, Et, <- !app_assoc. reflexivity.
Qed.

Lemma parseInline_visible (line : jsstring) :
  joinTexts (parseInline line) = visibleText Plain line.
Proof. unfold parseInline. now rewrite parseInline_loop_visible. Qed.

(* A prefix without marker characters only feeds the accumulator. *)
Lemma parseInline_loop_plain (p : jsstring) :
  forallb (fun c => negb (isMarker c)) p = true ->
  forall (rest current : jsstring) (result : list InlineSegment),
    parseInline_loop (p ++ rest) current result
    = parseInline_loop rest (current ++ p) result.
Proof.
  induction p as [|c p' IH]; simpl; intros Hp rest current result.
  - now rewrite app_nil_r.
  - apply andb_true_iff in Hp as [Hc Hp].
    unfold isMarker in Hc. apply negb_true_iff, orb_false_iff in Hc as [Hs Ht].
    rewrite parseInline_loop_cons.
    rewrite atBold_cons, atStar_cons, atTick_cons, Hs, Ht. simpl.
    rewrite (IH Hp), <- app_assoc. reflexivity.
Qed.

Lemma stopsWithin_head (c : char) (s : jsstring) :
  existsb (lit c) s = false ->
  stopsWithin (fun r => charIs c (charAt r 0)) s = false.
Proof.
  induction s as [|d s' IH]; simpl; [reflexivity|].
  intros H. apply orb_false_iff in H as [H1 H2].
  unfold lit in H1. rewrite H1. simpl. auto.
Qed.

Lemma existsb_head (c : char) (s : jsstring) :
  existsb (lit c) s = false -> charIs c (charAt s 0) = false.
Proof.
  destruct s as [|d s']; simpl; [reflexivity|].
  intros H. apply orb_false_iff in H as [H1 _]. exact H1.
Qed.

(* An opening asterisk with no asterisk after it. *)
Lemma parseInline_loop_open_star (s current : jsstring) (result : list InlineSegment) :
  existsb (lit STAR) s = false ->
  parseInline_loop (STAR :: s) current result
  = pushCurrent current result ++ [italicRun s].
Proof.
  intros H. rewrite parseInline_loop_cons.
  rewrite atBold_cons. change (atStar s) with (charIs STAR (charAt s 0)).
  rewrite (existsb_head _ _ H). simpl.
  unfold atStar at 1 2. rewrite (scan_to_end _ _ (stopsWithin_head _ _ H)). simpl.
  now rewrite parseInline_loop_equation_1.
Qed.

(* An opening backtick with no backtick after it. *)
Lemma parseInline_loop_open_tick (s current : jsstring) (result : list InlineSegment) :
  existsb (lit BACKTICK) s = false ->
  parseInline_loop (BACKTICK :: s) current result
  = pushCurrent current result ++ [italicRun s].
Proof.
  intros H. rewrite parseInline_loop_cons.
  change (atBold (BACKTICK :: s)) with false.
  change (atStar (BACKTICK :: s)) with false.
  change (atTick (BACKTICK :: s)) with true. simpl.
  unfold atTick at 1 2. rewrite (scan_to_end _ _ (stopsWithin_head _ _ H)). simpl.
  now rewrite parseInline_loop_equation_1.
Qed.

(* An opening pair of asterisks with no pair after it. *)
Lemma parseInline_loop_open_bold (s current : jsstring) (result : list InlineSegment) :
  stopsWithin atBold s = false ->
  parseInline_loop (STAR :: STAR :: s) current result
  = pushCurrent current result ++ [boldRun s].
Proof.
  intros H. rewrite parseInline_loop_cons.
  change (atBold (STAR :: STAR :: s)) with true. simpl.
  rewrite (scan_to_end _ _ H). simpl.
  now rewrite parseInline_loop_equation_1.
Qed.

(* An unterminated marker, in terms of the run constructors of the
   parser. *)
Lemma parseInline_unterminated_runs (p s : jsstring) :
  forallb (fun c => negb (isMarker c)) p = true ->
  (existsb (lit STAR) s = false ->
     parseInline (p ++ STAR :: s) = pushCurrent p [] ++ [italicRun s]) /\
  (existsb (lit BACKTICK) s = false ->
     parseInline (p ++ BACKTICK :: s) = pushCurrent p [] ++ [italicRun s]) /\
  (stopsWithin atBold s = false ->
     parseInline (p ++ STAR :: STAR :: s) = pushCurrent p [] ++ [boldRun s]).
Proof.
  intros Hp. unfold parseInline.
  repeat split; intros Hs; rewrite (parseInline_loop_plain _ Hp); simpl.
  - now apply parseInline_loop_open_star.
  - now apply parseInline_loop_open_tick.
  - now apply parseInline_loop_open_bold.
Qed.

(** C8. [parseInline] on a line whose last marker is never closed: after
    a prefix [p] free of marker characters, an opening asterisk, backtick
    or pair of asterisks followed by a text [s] that does not contain the
    closing marker yields the unstyled run [p] (when [p] is not empty) and
    then exactly one more run, the last one: it holds all of [s] and has
    [italic = true] and no [bold] (asterisk, backtick), or [bold = true]
    and no [italic] (pair of asterisks).  The function returns normally.
    At [p = ""] and [s = "unterminated"] this is
    [parseInline("*unterminated") = [{text: "unterminated", italic: true}]]. *)
Theorem parseInline_unterminated (p s : jsstring) :
  forallb (fun c => negb (isMarker c)) p = true ->
  (existsb (lit STAR) s = false ->
     parseInline (p ++ STAR :: s)
     = match p with
       | [] => []
       | _ :: _ => [{| text := p; bold := None; italic := None |}]
       end ++ [{| text := s; bold := None; italic := Some true |}]) /\
  (existsb (lit BACKTICK) s = false ->
     parseInline (p ++ BACKTICK :: s)
     = match p with
       | [] => []
       | _ :: _ => [{| text := p; bold := None; italic := None |}]
       end ++ [{| text := s; bold := None; italic := Some true |}]) /\
  (stopsWithin atBold s = false ->
     parseInline (p ++ STAR :: STAR :: s)
     = match p with
       | [] => []
       | _ :: _ => [{| text := p; bold := None; italic := None |}]
       end ++ [{| text := s; bold := Some true; italic := None |}]).
Proof.
  intros Hp. destruct (@parseInline_unterminated_runs p s Hp) as [H1 [H2 H3]].
  repeat split; intros Hs;
    [rewrite (H1 Hs)|rewrite (H2 Hs)|rewrite (H3 Hs)]; destruct p; reflexivity.
Qed.

Lemma parseInline_unterminated_witness :
  forallb (fun c => negb (isMarker c)) [] = true /\
  existsb (lit STAR) (str "unterminated") = false /\
  parseInline (str "*unterminated")
  = [{| text := str "unterminated"; bold := None; italic := Some true |}] /\
  length (parseInline (str "*unterminated")) = 1 /\
  map (fun run => truthy (italic run)) (parseInline (str "*unterminated")) = [true].
Proof.
  split; [reflexivity|]. split; [reflexivity|].
  pose proof (proj1 (@parseInline_unterminated [] (str "unterminated") eq_refl) eq_refl)
    as H.
  change (parseInline (str "*unterminated")
          = [{| text := str "unterminated"; bold := None; italic := Some true |}]) in H.
  rewrite H. repeat split.
Defined.

(* --------------------------------------------------------------------- *)
(* split                                                                  *)
(* --------------------------------------------------------------------- *)

Lemma split_length (sep : char) (s : jsstring) :
  length (split sep s) = S (count_occ N.eq_dec s sep).
Proof.
  induction s as [|c s' IH]; simpl; [reflexivity|].
  destruct (N.eqb_spec c sep) as [->|Hne].
  - simpl. rewrite IH. destruct (N.eq_dec sep sep); [reflexivity|contradiction].
  - destruct (N.eq_dec c sep); [contradiction|].
    destruct (split sep s'); simpl in *; [discriminate|exact IH].
Qed.

Lemma split_pieces (sep : char) (s : jsstring) :
  Forall (fun piece => ~ In sep piece) (split sep s).
Proof.
  induction s as [|c s' IH]; simpl.
  - constructor; [intros []|constructor].
  - destruct (N.eqb_spec c sep) as [->|Hne].
    + constructor; [intros []|exact IH].
    + destruct (split sep s') as [|piece pieces].
      * constructor; [|constructor]. intros [H|[]]. contradiction.
      * inversion IH as [|? ? Hp Hps]; subst. constructor; [|exact Hps].
        intros [H|H]; [contradiction|auto].
Qed.

Lemma split_nonempty (sep : char) (s : jsstring) : split sep s <> [].
Proof.
  intros E. pose proof (split_length sep s) as H. rewrite E in H. discriminate.
Qed.

Lemma join_split (sep : char) (s : jsstring) : join sep (split sep s) = s.
Proof.
  induction s as [|c s' IH]; [reflexivity|].
  pose proof (@split_nonempty sep s') as Hne.
  simpl split. destruct (N.eqb_spec c sep) as [->|Hne'].
  - destruct (split sep s') eqn:E; [contradiction|].
    simpl. simpl in IH. now rewrite IH.
  - destruct (split sep s') as [|piece pieces] eqn:E; [contradiction|].
    destruct pieces; simpl in *; now rewrite IH.
Qed.

(* --------------------------------------------------------------------- *)
(* The line classifier                                                    *)
(* --------------------------------------------------------------------- *)


Lemma takeWhile_In (p : char -> bool) (s : jsstring) (c : char) :
  In c (takeWhile p s) -> In c s.
Proof.
  induction s as [|d s' IH]; simpl; [auto|].
  destruct (p d); simpl; [|intros []]. intros [H|H]; auto.
Qed.

Lemma matchHead_In (pat : list (char -> bool)) :
  forall (s after : jsstring) (c : char),
    matchHead pat s = Some after -> In c after -> In c s.
Proof.
  induction pat as [|p pat' IH]; simpl; intros s after c H Hin.
  - now injection H as ->.
  - destruct s as [|d s']; [discriminate|].
    destruct (p d); [|discriminate]. right. eauto.
Qed.

Lemma regexMatch_In (pat : list (char -> bool)) (line cap : jsstring) (c : char) :
  regexMatch pat line = Some cap -> In c cap -> In c line.
Proof.
  unfold regexMatch. destruct (matchHead pat line) as [after|] eqn:E; [|discriminate].
  destruct (takeWhile _ after) as [|d ds] eqn:Et; [discriminate|].
  intros H Hin. injection H as <-. rewrite <- Et in Hin.
  eapply matchHead_In; [exact E|]. eapply takeWhile_In; exact Hin.
Qed.

Lemma inlineContent_In (line : jsstring) (c : char) :
  In c (inlineContent line) -> In c line.
Proof.
  unfold inlineContent.
  destruct (regexMatch reH1 line) eqn:E1; [now apply regexMatch_In with (1 := E1)|].
  destruct (regexMatch reH2 line) eqn:E2; [now apply regexMatch_In with (1 := E2)|].
  destruct (regexMatch reH3 line) eqn:E3; [now apply regexMatch_In with (1 := E3)|].
  destruct (regexMatch reBullet line) eqn:E4; [now apply regexMatch_In with (1 := E4)|].
  destruct (isEmpty (trim line)); [intros []|auto].
Qed.

(* The joined run texts of a line's segment against its matched inline
   content: only marker characters can be missing, and for a heading
   nothing is. *)
Lemma classifyLine_texts (line : jsstring) :
  markersDeleted (inlineContent line) (joinTexts (inlines (classifyLine line))) /\
  (isNormalText (style (classifyLine line)) = false ->
     joinTexts (inlines (classifyLine line)) = inlineContent line).
Proof.
  unfold classifyLine, inlineContent.
  destruct (regexMatch reH1 line);
    [simpl; rewrite app_nil_r; split; [apply markersDeleted_refl|reflexivity]|].
  destruct (regexMatch reH2 line);
    [simpl; rewrite app_nil_r; split; [apply markersDeleted_refl|reflexivity]|].
  destruct (regexMatch reH3 line);
    [simpl; rewrite app_nil_r; split; [apply markersDeleted_refl|reflexivity]|].
  destruct (regexMatch reBullet line).
  - simpl. split; [apply parseInline_texts|discriminate].
  - destruct (isEmpty (trim line)); simpl.
    + split; [constructor|discriminate].
    + split; [apply parseInline_texts|discriminate].
Qed.




(* The joined run texts of a line's segment, exactly: the matched
   content itself for a heading, and its visible characters otherwise. *)
Lemma classifyLine_visible (line : jsstring) :
  isNormalText (style (classifyLine line)) = true ->
  joinTexts (inlines (classifyLine line)) = visibleText Plain (inlineContent line).
Proof.
  unfold classifyLine, inlineContent.
  destruct (regexMatch reH1 line); [discriminate|].
  destruct (regexMatch reH2 line); [discriminate|].
  destruct (regexMatch reH3 line); [discriminate|].
  destruct (regexMatch reBullet line); [intros _; apply parseInline_visible|].
  destruct (isEmpty (trim line)); intros _; [reflexivity|apply parseInline_visible].
Qed.

(** C6 (amended).  For every line, the texts of the segment's runs, joined
    in order, are: for a heading line, the matched inline content
    verbatim, markers included; for every other line (bullet, paragraph,
    blank), exactly the visible characters of the matched inline content,
    that is, the content with the markers the inline parser recognises
    removed (each opening marker and its closing marker, if there is
    one) and every other character kept, an asterisk or backtick enclosed
    in a span that it does not close included.  So only asterisks and
    backticks are ever missing, and a content without any is reproduced
    exactly. *)
Theorem segment_texts_delete_markers_only (line : jsstring) :
  (isNormalText (style (classifyLine line)) = false ->
     joinTexts (inlines (classifyLine line)) = inlineContent line) /\
  (isNormalText (style (classifyLine line)) = true ->
     joinTexts (inlines (classifyLine line))
     = visibleText Plain (inlineContent line)) /\
  markersDeleted (inlineContent line) (joinTexts (inlines (classifyLine line))) /\
  (forallb (fun c => negb (isMarker c)) (inlineContent line) = true ->
     joinTexts (inlines (classifyLine line)) = inlineContent line).
Proof.
  destruct (classifyLine_texts line) as [Hd Hh].
  split; [exact Hh|]. split; [apply classifyLine_visible|]. split; [exact Hd|].
  intros Hp. exact (markersDeleted_plain Hd Hp).
Qed.

Lemma segment_texts_delete_markers_only_witness :
  isNormalText (style (classifyLine (str "- a **b*c** `d*` *e*"))) = true /\
  inlineContent (str "- a **b*c** `d*` *e*") = str "a **b*c** `d*` *e*" /\
  joinTexts (inlines (classifyLine (str "- a **b*c** `d*` *e*"))) = str "a b*c d* e".
Proof.
  split; [reflexivity|]. split; [reflexivity|].
  exact (proj1 (proj2 (segment_texts_delete_markers_only (str "- a **b*c** `d*` *e*")))
           eq_refl).
Defined.

(** C6 (counterexample).  The heading line "# *a*" has matched inline
    content "*a*"; its segment's joined texts are "*a*", markers kept,
    and not "a", the content with all style markers removed. *)
Lemma heading_texts_keep_markers :
  inlineContent (str "# *a*") = str "*a*" /\
  joinTexts (inlines (classifyLine (str "# *a*"))) = str "*a*" /\
  joinTexts (inlines (classifyLine (str "# *a*")))
  <> stripMarkers (inlineContent (str "# *a*")).
Proof. repeat split. discriminate. Qed.

(* Inside a bold span a single asterisk is text, not a marker: the inline
   parser does not remove every marker character either. *)
Example parseInline_keeps_enclosed_marker :
  joinTexts (parseInline (str "**a*b**")) = str "a*b".
Proof. reflexivity. Qed.

(* The visible characters on a line with all three kinds of span: the
   delimiters go, the asterisks inside the bold and the code span stay,
   and the last asterisk opens a span that holds nothing. *)
Example visibleText_spans :
  visibleText Plain (str "**a*b** `c*d` *e* f*") = str "a*b c*d e f"
  /\ joinTexts (parseInline (str "**a*b** `c*d` *e* f*")) = str "a*b c*d e f".
Proof. split; reflexivity. Qed.

(** C7.  The classifier produces one segment per element of
    [markdown.split("\n")], in order: the k-th segment is the
    classification of the k-th line, so the number of segments is the
    number of lines, which is one more than the number of newline
    characters of the input. *)
Theorem segments_one_per_line (markdown : jsstring) :
  length (segments markdown) = length (split NEWLINE markdown) /\
  length (segments markdown) = S (count_occ N.eq_dec markdown NEWLINE) /\
  (forall k : nat,
     nth_error (segments markdown) k
     = option_map classifyLine (nth_error (split NEWLINE markdown) k)).
Proof.
  unfold segments. rewrite length_map. split; [reflexivity|].
  split; [apply split_length|]. intros k. apply nth_error_map.
Qed.

(* --------------------------------------------------------------------- *)
(* The layout loop                                                        *)
(* --------------------------------------------------------------------- *)

Lemma layout_fold_fullText (segs : list DocSegment) :
  forall st : LayoutState,
    fullText (fold_left layoutStep segs st) = fullText st ++ flat_map segText segs.
Proof.
  induction segs as [|seg segs' IH]; intros st; simpl.
  - now rewrite app_nil_r.
  - rewrite IH. simpl. now rewrite <- app_assoc.
Qed.

Lemma layout_fullText (segs : list DocSegment) :
  fullText (layout segs) = flat_map segText segs.
Proof. unfold layout. now rewrite layout_fold_fullText. Qed.

Lemma layout_fold_currentIndex (segs : list DocSegment) :
  forall st : LayoutState,
    currentIndex (fold_left layoutStep segs st)
    = currentIndex st + length (flat_map segText segs).
Proof.
  induction segs as [|seg segs' IH]; intros st; simpl.
  - lia.
  - rewrite IH. simpl. rewrite length_app. lia.
Qed.

(* The text buffer of a non-empty list of segments ends with the newline
   of its last segment. *)
Lemma flat_map_segText_last (segs : list DocSegment) :
  segs <> [] -> exists body : jsstring, flat_map segText segs = body ++ [NEWLINE].
Proof.
  intros Hne. destruct (exists_last Hne) as [init [seg ->]].
  exists (flat_map segText init ++ joinTexts (inlines seg)).
  rewrite flat_map_app. simpl. unfold segText at 2.
  now rewrite app_nil_r, app_assoc.
Qed.

Lemma segments_nonempty (markdown : jsstring) : segments markdown <> [].
Proof.
  unfold segments. intros E. apply map_eq_nil in E.
  exact (split_nonempty _ _ E).
Qed.

(* A line without a newline renders to a text with exactly one, the
   trailing one. *)
Lemma segText_one_newline (line : jsstring) :
  ~ In NEWLINE line ->
  count_occ N.eq_dec (segText (classifyLine line)) NEWLINE = 1.
Proof.
  intros Hn. unfold segText. rewrite count_occ_app.
  match goal with |- ?a + _ = _ => assert (E : a = 0) end.
  { apply count_occ_not_In. intros Hin. apply Hn.
    apply inlineContent_In.
    eapply markersDeleted_In; [apply classifyLine_texts|exact Hin]. }
  rewrite E. reflexivity.
Qed.

Lemma fullText_newlines (lines : list jsstring) :
  Forall (fun piece => ~ In NEWLINE piece) lines ->
  count_occ N.eq_dec (flat_map segText (map classifyLine lines)) NEWLINE
  = length lines.
Proof.
  induction 1 as [|line lines' Hl Hls IH]; simpl; [reflexivity|].
  rewrite count_occ_app, IH, segText_one_newline by assumption. reflexivity.
Qed.

Lemma rangeRequests_no_insertText (range : StyleRange) :
  filter isInsertText (rangeRequests range) = [].
Proof.
  unfold rangeRequests.
  destruct (paragraphStyle range) as [n|]; [destruct (truthyStyle (Some n))|];
    destruct (truthy (rangeBullet range)); destruct (textStyle range); reflexivity.
Qed.

Lemma styleRequests_no_insertText (ranges : list StyleRange) :
  filter isInsertText (flat_map rangeRequests ranges) = [].
Proof.
  induction ranges as [|r rs IH]; simpl; [reflexivity|].
  now rewrite filter_app, rangeRequests_no_insertText, IH.
Qed.

Lemma inlineStep_fold_ranges (runs : list InlineSegment) :
  forall (i : nat) (ranges : list StyleRange),
    Forall rangeInvariant ranges ->
    Forall rangeInvariant (snd (fold_left inlineStep runs (i, ranges))).
Proof.
  induction runs as [|run runs' IH]; intros i ranges H; simpl; [exact H|].
  apply IH. destruct (truthy (bold run) || truthy (italic run)); [|exact H].
  apply Forall_app. split; [exact H|]. constructor; [|constructor].
  unfold rangeInvariant. simpl. repeat split.
  - lia.
  - discriminate.
  - intros o E. now injection E as <-.
Qed.

Lemma layoutStep_ranges (st : LayoutState) (seg : DocSegment) :
  Forall rangeInvariant (styleRanges st) ->
  Forall rangeInvariant (styleRanges (layoutStep st seg)).
Proof.
  intros H. unfold layoutStep. simpl. apply inlineStep_fold_ranges.
  destruct (negb (isNormalText (style seg)) || truthy (bullet seg)); [|exact H].
  apply Forall_app. split; [exact H|]. constructor; [|constructor].
  unfold rangeInvariant, segText. simpl. rewrite length_app. simpl.
  repeat split; try lia. discriminate.
Qed.

Lemma layout_ranges (segs : list DocSegment) :
  Forall rangeInvariant (styleRanges (layout segs)).
Proof.
  unfold layout.
  assert (G : forall st, Forall rangeInvariant (styleRanges st) ->
            Forall rangeInvariant (styleRanges (fold_left layoutStep segs st))).
  { induction segs as [|seg segs' IH]; intros st H; simpl; [exact H|].
    apply IH. now apply layoutStep_ranges. }
  apply G. constructor.
Qed.

Lemma rangeRequests_name_both (range : StyleRange) :
  rangeInvariant range -> Forall namesBothFlags (rangeRequests range).
Proof.
  intros [_ [_ Ho]]. unfold rangeRequests.
  repeat (apply Forall_app; split).
  - destruct (paragraphStyle range) as [n|]; [|constructor].
    destruct (truthyStyle (Some n)); repeat constructor.
  - destruct (truthy (rangeBullet range)); repeat constructor.
  - destruct (textStyle range) as [o|]; [|constructor].
    constructor; [|constructor]. simpl. split; [now apply Ho|].
    unfold keysJoined. now rewrite (Ho o eq_refl).
Qed.

Lemma styleRequests_name_both (segs : list DocSegment) :
  Forall namesBothFlags (flat_map rangeRequests (styleRanges (layout segs))).
Proof.
  pose proof (layout_ranges segs) as H.
  induction H as [|r rs Hr Hrs IH]; simpl; [constructor|].
  apply Forall_app. split; [now apply rangeRequests_name_both|exact IH].
Qed.

(* The recorded paragraph and bullet ranges are never empty, and every
   range has its bounds in order. *)
Lemma styleRanges_ordered (markdown : jsstring) :
  Forall (fun r => startIndex r <= endIndex r /\
                   (textStyle r = None -> startIndex r < endIndex r))
         (styleRanges (layout (segments markdown))).
Proof.
  eapply Forall_impl; [|apply layout_ranges].
  intros r [H1 [H2 _]]. now split.
Qed.

(* The request list always starts with the insertion of the text buffer,
   which is never empty. *)
Lemma markdownToDocRequests_shape (markdown : jsstring) :
  markdownToDocRequests markdown
  = insertText 1 (fullText (layout (segments markdown)))
    :: flat_map rangeRequests (styleRanges (layout (segments markdown)))
  /\ exists body : jsstring,
       fullText (layout (segments markdown)) = body ++ [NEWLINE].
Proof.
  destruct (flat_map_segText_last (@segments_nonempty markdown)) as [body Hb].
  rewrite layout_fullText. split; [|now exists body].
  unfold markdownToDocRequests. rewrite layout_fullText, Hb.
  destruct body; reflexivity.
Qed.

(** C10.  For every input string the request list is the insertText
    request followed by the style requests: it begins with one insertText
    at index 1, no other request is an insertText, and the inserted text
    is the segments' rendered texts in order; it is not empty, it ends
    with a newline, and it holds as many newlines as the input has
    lines. *)
Theorem markdownToDocRequests_insertText (markdown : jsstring) :
  markdownToDocRequests markdown
  = insertText 1 (fullText (layout (segments markdown)))
    :: flat_map rangeRequests (styleRanges (layout (segments markdown)))
  /\ length (filter isInsertText (markdownToDocRequests markdown)) = 1
  /\ fullText (layout (segments markdown)) = flat_map segText (segments markdown)
  /\ fullText (layout (segments markdown)) <> []
  /\ (exists body : jsstring,
        fullText (layout (segments markdown)) = body ++ [NEWLINE])
  /\ count_occ N.eq_dec (fullText (layout (segments markdown))) NEWLINE
     = length (split NEWLINE markdown).
Proof.
  destruct (markdownToDocRequests_shape markdown) as [E [body Hb]].
  split; [exact E|]. split.
  { rewrite E. simpl. now rewrite styleRequests_no_insertText. }
  split; [apply layout_fullText|]. split.
  { rewrite Hb. destruct body; discriminate. }
  split; [now exists body|].
  rewrite layout_fullText. unfold segments. apply fullText_newlines, split_pieces.
Qed.

(* --------------------------------------------------------------------- *)
(* The worked examples                                                    *)
(* --------------------------------------------------------------------- *)

(** C1 (amended).  For the empty input string the classifier produces one
    segment, an empty paragraph; the layout records no style range; and
    the request list holds exactly one request, the insertion of the
    single newline that ends the one line. *)
Theorem empty_input_requests :
  segments []
  = [{| inlines := [plainRun []]; style := NORMAL_TEXT; bullet := None |}]
  /\ styleRanges (layout (segments [])) = []
  /\ markdownToDocRequests [] = [insertText 1 [NEWLINE]].
Proof. repeat split. Qed.

(** C1 (counterexample).  The request list of the empty input string is
    not empty. *)
Lemma empty_input_requests_not_empty : markdownToDocRequests [] <> [].
Proof. discriminate. Qed.

(** C2 (amended).  markdownToDocRequests("# Title") is one insertText of
    "Title\n" followed by one paragraph style request, HEADING_1 over
    [1,7): the six characters of "Title\n" start at index 1. *)
Theorem title_requests :
  markdownToDocRequests (str "# Title")
  = [insertText 1 (str "Title" ++ [NEWLINE]);
     updateParagraphStyle 1 7 "HEADING_1" "namedStyleType"].
Proof. reflexivity. Qed.

(** C2 (counterexample).  No request for "# Title" is a paragraph style
    request over [1,8). *)
Lemma title_requests_not_1_8 :
  existsb (fun r => match r with
                    | updateParagraphStyle 1 8 _ _ => true
                    | _ => false
                    end)
          (markdownToDocRequests (str "# Title")) = false.
Proof. reflexivity. Qed.

(** C9.  markdownToDocRequests("- item one\n- item two") is the insertText
    of "item one\nitem two\n" followed by two bullet requests, over [1,10)
    and [10,19), each one full line with its newline; there is no
    paragraph style request. *)
Theorem bullets_requests :
  markdownToDocRequests (str "- item one" ++ NEWLINE :: str "- item two")
  = [insertText 1 (str "item one" ++ NEWLINE :: str "item two" ++ [NEWLINE]);
     createParagraphBullets 1 10 "BULLET_DISC_CIRCLE_SQUARE";
     createParagraphBullets 10 19 "BULLET_DISC_CIRCLE_SQUARE"].
Proof. reflexivity. Qed.

(** C3 (the code at the failing input).  For the line "****", a bold span
    with nothing in it, the layout records an inline style range with
    startIndex = endIndex = 1, and the request list carries a text style
    request over the empty range [1,1). *)
Theorem empty_bold_span_range :
  parseInline (str "****") = [boldRun []]
  /\ styleRanges (layout (segments (str "****")))
     = [{| startIndex := 1;
           endIndex := 1;
           paragraphStyle := None;
           textStyle := Some [("bold"%string, Some true); ("italic"%string, None)];
           rangeBullet := None |}]
  /\ markdownToDocRequests (str "****")
     = [insertText 1 [NEWLINE];
        updateTextStyle 1 1 [("bold"%string, Some true); ("italic"%string, None)]
          "bold,italic"].
Proof. repeat split. Qed.

(* The text style request emitted for a run with bold or italic set
   carries a style object with both properties, [bold] and [italic],
   holding the run's own flags (the one not set is undefined), over the
   run's character span, and its field mask names both flags; every text
   style request of every request list has this shape.  The mask is
   computed from the keys of the style object, and the object is always
   built with both keys. *)
Lemma textStyle_request_names_both (run : InlineSegment) (i : nat)
        (ranges : list StyleRange) (markdown : jsstring) :
  truthy (bold run) || truthy (italic run) = true ->
  flat_map rangeRequests (snd (inlineStep (i, ranges) run))
  = flat_map rangeRequests ranges
    ++ [updateTextStyle i (i + length (text run))
          [("bold"%string, bold run); ("italic"%string, italic run)]
          "bold,italic"]
  /\ Forall namesBothFlags (markdownToDocRequests markdown).
Proof.
  intros Hrun. split.
  - unfold inlineStep. simpl. rewrite Hrun, flat_map_app. reflexivity.
  - rewrite (proj1 (markdownToDocRequests_shape markdown)).
    constructor; [exact I|]. apply styleRequests_name_both.
Qed.

Lemma textStyle_request_names_both_witness :
  truthy (bold (boldRun (str "b"))) || truthy (italic (boldRun (str "b"))) = true /\
  flat_map rangeRequests (snd (inlineStep (1, []) (boldRun (str "b"))))
  = [updateTextStyle 1 2 [("bold"%string, Some true); ("italic"%string, None)]
       "bold,italic"].
Proof.
  split; [reflexivity|].
  exact (proj1 (@textStyle_request_names_both (boldRun (str "b")) 1 [] [] eq_refl)).
Defined.

(** C4 (the code at the failing input).  For "**b**", a run with bold
    set and italic not set, the one text style request has a style object
    with both properties, [italic] being undefined, and its field mask is
    "bold,italic": it names italic too, and is not "bold". *)
Theorem bold_run_fields_name_italic :
  markdownToDocRequests (str "**b**")
  = [insertText 1 (str "b" ++ [NEWLINE]);
     updateTextStyle 1 2 [("bold"%string, Some true); ("italic"%string, None)]
       "bold,italic"]
  /\ existsb (fun r => match r with
                       | updateTextStyle _ _ _ fields => String.eqb fields "bold"
                       | _ => false
                       end)
             (markdownToDocRequests (str "**b**")) = false.
Proof. split; reflexivity. Qed.

(* --------------------------------------------------------------------- *)
(* parseDocId                                                             *)
(* --------------------------------------------------------------------- *)

Lemma takeWhile_forallb (p : char -> bool) (s : jsstring) :
  forallb p (takeWhile p s) = true.
Proof.
  induction s as [|c s' IH]; simpl; [reflexivity|].
  destruct (p c) eqn:E; simpl; [now rewrite E|reflexivity].
Qed.

Lemma takeWhile_app_stop (p : char -> bool) (s : jsstring) (c : char) (rest : jsstring) :
  forallb p s = true -> p c = false -> takeWhile p (s ++ c :: rest) = s.
Proof.
  intros Hs Hc. induction s as [|d s' IH]; simpl in *.
  - now rewrite Hc.
  - apply andb_true_iff in Hs as [Hd Hs]. now rewrite Hd, IH.
Qed.

Lemma matchDocIdAt_idChars (s m1 : jsstring) :
  matchDocIdAt s = Some m1 -> m1 <> [] /\ forallb idChar m1 = true.
Proof.
  unfold matchDocIdAt. destruct (matchHead _ s) as [after|]; [|discriminate].
  pose proof (takeWhile_forallb idChar after) as H.
  destruct (takeWhile idChar after) as [|c cs]; [discriminate|].
  intros E. injection E as <-. split; [discriminate|exact H].
Qed.

Lemma matchDocId_idChars (s m1 : jsstring) :
  matchDocId s = Some m1 -> m1 <> [] /\ forallb idChar m1 = true.
Proof.
  induction s as [|c s' IH]; simpl; [discriminate|].
  destruct (matchDocIdAt (c :: s')) as [m|] eqn:E; [|exact IH].
  intros H. injection H as <-. now apply matchDocIdAt_idChars with (s := c :: s').
Qed.

(* Without a slash there is nothing to match. *)
Lemma matchDocId_no_slash (s : jsstring) :
  existsb (lit SLASH) s = false -> matchDocId s = None.
Proof.
  induction s as [|c s' IH]; simpl; [reflexivity|].
  intros H. apply orb_false_iff in H as [Hc Hs].
  unfold matchDocIdAt, matchHead. unfold lit in Hc |- * at 1. rewrite Hc. auto.
Qed.

Lemma idChar_not_slash (s : jsstring) :
  forallb idChar s = true -> existsb (lit SLASH) s = false.
Proof.
  induction s as [|c s' IH]; simpl; [reflexivity|].
  intros H. apply andb_true_iff in H as [Hc Hs]. rewrite (IH Hs), orb_false_r.
  unfold lit, SLASH. destruct (N.eqb_spec c 47) as [->|]; [discriminate Hc|reflexivity].
Qed.

(** X1.  parseDocId undoes the url that createDoc and listDocs build: for
    a non-empty document id made of the characters [a-zA-Z0-9_-],
    parseDocId("https://docs.google.com/document/d/" + id + "/edit") is
    the id. *)
Theorem parseDocId_docUrl (docId : jsstring) :
  docId <> [] -> forallb idChar docId = true ->
  parseDocId (docUrl docId) = docId.
Proof.
  intros Hne Hid. unfold parseDocId, docUrl.
  assert (E : matchDocId (str "https://docs.google.com/document/d/"
                            ++ docId ++ str "/edit") = Some docId).
  { cbn - [takeWhile]. unfold matchDocIdAt. cbn - [takeWhile].
    rewrite (takeWhile_app_stop idChar docId 47%N [101; 100; 105; 116]%N Hid eq_refl).
    destruct docId; [contradiction|reflexivity]. }
  now rewrite E.
Qed.

Lemma parseDocId_docUrl_witness :
  str "1aB-9_z" <> [] /\ forallb idChar (str "1aB-9_z") = true /\
  parseDocId (str "https://docs.google.com/document/d/1aB-9_z/edit") = str "1aB-9_z".
Proof.
  split; [discriminate|]. split; [reflexivity|].
  exact (@parseDocId_docUrl (str "1aB-9_z") ltac:(discriminate) eq_refl).
Defined.

(** X2.  parseDocId returns either its input unchanged (nothing matched)
    or a non-empty string of id characters; applying it twice is the same
    as applying it once. *)
Theorem parseDocId_idempotent (input : jsstring) :
  (parseDocId input = input \/
   (parseDocId input <> [] /\ forallb idChar (parseDocId input) = true))
  /\ parseDocId (parseDocId input) = parseDocId input.
Proof.
  unfold parseDocId at 1 2 3 5 6. destruct (matchDocId input) as [m1|] eqn:E.
  - destruct (matchDocId_idChars _ E) as [Hne Hid]. split; [now right|].
    unfold parseDocId. now rewrite (matchDocId_no_slash _ (idChar_not_slash _ Hid)).
  - split; [now left|]. unfold parseDocId. now rewrite E.
Qed.

(** X3.  An input without any slash, such as a bare document id, is
    returned as it is. *)
Theorem parseDocId_raw_id (input : jsstring) :
  existsb (lit SLASH) input = false -> parseDocId input = input.
Proof.
  intros H. unfold parseDocId. now rewrite (matchDocId_no_slash _ H).
Qed.

Lemma parseDocId_raw_id_witness :
  existsb (lit SLASH) (str "1aB-9_z") = false /\
  parseDocId (str "1aB-9_z") = str "1aB-9_z".
Proof.
  split; [reflexivity|]. exact (@parseDocId_raw_id (str "1aB-9_z") eq_refl).
Defined.

(* --------------------------------------------------------------------- *)
(* updateDoc and createDoc                                                *)
(* --------------------------------------------------------------------- *)

(** X4.  The requests of updateDoc are the compiler's requests, the
    insertText at index 1 first, preceded by one deleteContentRange
    exactly when the body's end index is above 2; that deletion starts at
    1 and its range [1, endIndex - 1) is not empty. *)
Theorem updateDocRequests_shape (lastEndIndex : option nat) (content : jsstring) :
  exists pre : list UpdateRequest,
    updateDocRequests lastEndIndex content
    = pre ++ contentRequest (insertText 1 (fullText (layout (segments content))))
          :: map contentRequest
               (flat_map rangeRequests (styleRanges (layout (segments content))))
    /\ ((bodyEndIndex lastEndIndex <= 2 /\ pre = []) \/
        (2 < bodyEndIndex lastEndIndex /\
         pre = [deleteContentRange 1 (bodyEndIndex lastEndIndex - 1)] /\
         1 < bodyEndIndex lastEndIndex - 1)).
Proof.
  unfold updateDocRequests.
  rewrite (proj1 (markdownToDocRequests_shape content)). simpl map.
  destruct (Nat.ltb_spec 2 (bodyEndIndex lastEndIndex)) as [H|H].
  - eexists. split; [reflexivity|]. right. repeat split; [exact H|lia].
  - exists []. split; [reflexivity|]. left. now split.
Qed.

(** X5.  createDoc always sends a batch: the guard [requests.length > 0]
    holds for every content, the empty string included, because the
    request list always holds the insertText. *)
Theorem createDocBatch_always (content : jsstring) :
  createDocBatch content = Some (markdownToDocRequests content)
  /\ exists rest : list Request,
       markdownToDocRequests content
       = insertText 1 (fullText (layout (segments content))) :: rest.
Proof.
  unfold createDocBatch.
  rewrite (proj1 (markdownToDocRequests_shape content)). simpl.
  split; [reflexivity|]. eexists. reflexivity.
Qed.

(* --------------------------------------------------------------------- *)
(* parseInline: the shape of the result                                   *)
(* --------------------------------------------------------------------- *)

Lemma pushCurrent_app (current : jsstring) (result : list InlineSegment) :
  pushCurrent current result = result ++ pushCurrent current [].
Proof.
  unfold pushCurrent. destruct (nonEmpty current); [reflexivity|].
  now rewrite app_nil_r.
Qed.

(* The loop only appends to [result]. *)
Lemma parseInline_loop_result (rest : jsstring) :
  forall (current : jsstring) (result : list InlineSegment),
    parseInline_loop rest current result
    = result ++ parseInline_loop rest current [].
Proof.
  induction rest as [|c rest' Eb IH|c rest' Eb Es IH|c rest' Eb Es Et IH|c rest' Eb Es Et IH]
    using parseInline_rest_ind; intros current result.
  - rewrite !parseInline_loop_equation_1. apply pushCurrent_app.
  - rewrite !parseInline_loop_cons, Eb.
    rewrite IH. rewrite (IH _ (pushCurrent current [] ++ _)).
    rewrite (pushCurrent_app current result), <- !app_assoc. reflexivity.
  - rewrite !parseInline_loop_cons, Eb, Es.
    rewrite IH. rewrite (IH _ (pushCurrent current [] ++ _)).
    rewrite (pushCurrent_app current result), <- !app_assoc. reflexivity.
  - rewrite !parseInline_loop_cons, Eb, Es, Et.
    rewrite IH. rewrite (IH _ (pushCurrent current [] ++ _)).
    rewrite (pushCurrent_app current result), <- !app_assoc. reflexivity.
  - rewrite !parseInline_loop_cons, Eb, Es, Et. apply IH.
Qed.

(* One iteration that opens a span: the pending plain run, the styled
   run, and then the runs of what follows the span. *)
Lemma parseInline_loop_span (rest current : jsstring) (run : InlineSegment) :
  parseInline_loop rest [] (pushCurrent current [] ++ [run])
  = pushCurrent current [] ++ run :: parseInline rest.
Proof.
  rewrite parseInline_loop_result, <- app_assoc. reflexivity.
Qed.

Lemma wellFormed_pushCurrent (current : jsstring) :
  Forall wellFormedRun (pushCurrent current []).
Proof.
  unfold pushCurrent. destruct current as [|c cs]; simpl; constructor; [|constructor].
  left. exists (c :: cs). split; [discriminate|reflexivity].
Qed.

Lemma noAdjacentPlain_styled (run : InlineSegment) (runs : list InlineSegment) :
  isPlain run = false -> noAdjacentPlain runs = true ->
  noAdjacentPlain (run :: runs) = true.
Proof.
  intros Hr Hs. destruct runs as [|next runs']; [reflexivity|].
  change (negb (isPlain run && isPlain next) && noAdjacentPlain (next :: runs') = true).
  now rewrite Hr, Hs.
Qed.

Lemma noAdjacentPlain_span (current : jsstring) (run : InlineSegment)
      (runs : list InlineSegment) :
  isPlain run = false -> noAdjacentPlain runs = true ->
  noAdjacentPlain (pushCurrent current [] ++ run :: runs) = true.
Proof.
  intros Hr Hs. pose proof (noAdjacentPlain_styled run runs Hr Hs) as H.
  unfold pushCurrent. destruct (nonEmpty current); simpl app; [|exact H].
  change (negb (isPlain (plainRun current) && isPlain run)
          && noAdjacentPlain (run :: runs) = true).
  now rewrite Hr, H, andb_false_r.
Qed.

Lemma parseInline_loop_shape (rest : jsstring) :
  forall current : jsstring,
    Forall wellFormedRun (parseInline_loop rest current []) /\
    noAdjacentPlain (parseInline_loop rest current []) = true.
Proof.
  induction rest as [|c rest' Eb IH|c rest' Eb Es IH|c rest' Eb Es Et IH|c rest' Eb Es Et IH]
    using parseInline_rest_ind; intros current.
  - rewrite parseInline_loop_equation_1. split; [apply wellFormed_pushCurrent|].
    unfold pushCurrent. destruct (nonEmpty current); reflexivity.
  - rewrite parseInline_loop_cons, Eb, parseInline_loop_span.
    destruct (IH []) as [Hw Hn]. split.
    + apply Forall_app. split; [apply wellFormed_pushCurrent|].
      constructor; [|exact Hw]. right. left. eexists. reflexivity.
    + now apply noAdjacentPlain_span.
  - rewrite parseInline_loop_cons, Eb, Es, parseInline_loop_span.
    destruct (IH []) as [Hw Hn]. split.
    + apply Forall_app. split; [apply wellFormed_pushCurrent|].
      constructor; [|exact Hw]. right. right. eexists. reflexivity.
    + now apply noAdjacentPlain_span.
  - rewrite parseInline_loop_cons, Eb, Es, Et, parseInline_loop_span.
    destruct (IH []) as [Hw Hn]. split.
    + apply Forall_app. split; [apply wellFormed_pushCurrent|].
      constructor; [|exact Hw]. right. right. eexists. reflexivity.
    + now apply noAdjacentPlain_span.
  - rewrite parseInline_loop_cons, Eb, Es, Et. apply IH.
Qed.

(** X6.  Every run that parseInline returns is of one of three shapes: a
    plain run with non-empty text, a bold run, or an italic run; so no
    run is bold and italic at once and no plain run is empty.  No two
    neighbouring runs are both plain: plain text between two markers is
    one run. *)
Theorem parseInline_runs_shape (line : jsstring) :
  Forall wellFormedRun (parseInline line) /\
  Forall (fun run => truthy (bold run) && truthy (italic run) = false) (parseInline line) /\
  Forall (fun run => isPlain run = true -> text run <> []) (parseInline line) /\
  noAdjacentPlain (parseInline line) = true.
Proof.
  destruct (parseInline_loop_shape line []) as [Hw Hn]. fold (parseInline line) in Hw, Hn.
  split; [exact Hw|]. split; [|split; [|exact Hn]].
  - eapply Forall_impl; [|exact Hw].
    intros run [[t [_ ->]]|[[t ->]|[t ->]]]; reflexivity.
  - eapply Forall_impl; [|exact Hw].
    intros run [[t [Ht ->]]|[[t ->]|[t ->]]]; simpl; intros H; [exact Ht|discriminate|discriminate].
Qed.

Lemma parseInline_runs_shape_witness :
  isPlain (plainRun (str "a ")) = true /\
  Forall (fun run => isPlain run = true -> text run <> []) (parseInline (str "a **b**")).
Proof.
  split; [reflexivity|].
  exact (proj1 (proj2 (proj2 (parseInline_runs_shape (str "a **b**"))))).
Defined.

(** X7.  A line without any asterisk or backtick is one plain run holding
    the whole line, and the empty line gives no run at all. *)
Theorem parseInline_plain (line : jsstring) :
  forallb (fun c => negb (isMarker c)) line = true ->
  parseInline line = pushCurrent line [] /\
  (line <> [] -> parseInline line = [plainRun line]) /\
  (line = [] -> parseInline line = []).
Proof.
  intros Hp.
  assert (E : parseInline line = pushCurrent line []).
  { unfold parseInline. rewrite <- (app_nil_r line) at 1.
    rewrite (parseInline_loop_plain _ Hp). simpl.
    now rewrite parseInline_loop_equation_1. }
  split; [exact E|]. rewrite E. split.
  - destruct line; [contradiction|reflexivity].
  - intros ->. reflexivity.
Qed.

Lemma parseInline_plain_witness :
  forallb (fun c => negb (isMarker c)) (str "item one") = true /\
  parseInline (str "item one") = [plainRun (str "item one")].
Proof.
  split; [reflexivity|].
  apply (proj1 (proj2 (@parseInline_plain (str "item one") eq_refl))).
  discriminate.
Defined.

(* A scan over [s ++ tail] that cannot stop inside [s] stops at [tail]. *)
Lemma scan_app_stop (stop : jsstring -> bool) (s tail : jsstring) :
  stopsWithin (fun r => stop (r ++ tail)) s = false ->
  tail = [] \/ stop tail = true ->
  scan stop (s ++ tail) = (s, tail).
Proof.
  intros Hs Ht. induction s as [|c s' IH].
  - destruct tail as [|d tail']; [reflexivity|].
    destruct Ht as [Ht|Ht]; [discriminate|]. simpl. now rewrite Ht.
  - simpl in Hs. apply orb_false_iff in Hs as [H1 H2].
    simpl. now rewrite H1, (IH H2).
Qed.

Lemma no_star_no_stop (s tail : jsstring) :
  existsb (lit STAR) s = false ->
  stopsWithin (fun r => atStar (r ++ tail)) s = false /\
  stopsWithin (fun r => atBold (r ++ tail)) s = false.
Proof.
  induction s as [|c s' IH]; simpl; [now split|].
  intros H. apply orb_false_iff in H as [Hc Hs]. destruct (IH Hs) as [I1 I2].
  unfold lit in Hc. rewrite I1, I2, atStar_cons, atBold_cons, Hc. now split.
Qed.

Lemma no_tick_no_stop (s tail : jsstring) :
  existsb (lit BACKTICK) s = false ->
  stopsWithin (fun r => atTick (r ++ tail)) s = false.
Proof.
  induction s as [|c s' IH]; simpl; [reflexivity|].
  intros H. apply orb_false_iff in H as [Hc Hs].
  unfold lit in Hc. now rewrite (IH Hs), atTick_cons, Hc.
Qed.

(** X8.  A span that is closed ends at its closing marker and parsing
    goes on after it: after a prefix [p] free of marker characters, a
    text [s] between two pairs of asterisks, two asterisks or two
    backticks (and not containing the marker character itself) gives the
    plain run [p] when it is not empty, one bold or italic run holding
    [s], and then the runs of the remainder of the line.  Between single
    asterisks [s] must not be empty, as two asterisks in a row open a
    bold span. *)
Theorem parseInline_closed_span (p s rest : jsstring) :
  forallb (fun c => negb (isMarker c)) p = true ->
  (existsb (lit STAR) s = false ->
     parseInline (p ++ STAR :: STAR :: s ++ STAR :: STAR :: rest)
     = pushCurrent p [] ++ boldRun s :: parseInline rest) /\
  (existsb (lit STAR) s = false -> s <> [] ->
     parseInline (p ++ STAR :: s ++ STAR :: rest)
     = pushCurrent p [] ++ italicRun s :: parseInline rest) /\
  (existsb (lit BACKTICK) s = false ->
     parseInline (p ++ BACKTICK :: s ++ BACKTICK :: rest)
     = pushCurrent p [] ++ italicRun s :: parseInline rest).
Proof.
  intros Hp. unfold parseInline at 1 3 5.
  rewrite !(parseInline_loop_plain _ Hp). simpl app.
  split; [|split].
  - intros Hs. rewrite parseInline_loop_cons.
    change (atBold (STAR :: STAR :: s ++ STAR :: STAR :: rest)) with true.
    change (skipn 1 (STAR :: s ++ STAR :: STAR :: rest)) with (s ++ STAR :: STAR :: rest).
    rewrite (@scan_app_stop atBold s (STAR :: STAR :: rest)
               (proj2 (@no_star_no_stop _ _ Hs)) (or_intror eq_refl)).
    apply parseInline_loop_span.
  - intros Hs Hne. rewrite parseInline_loop_cons.
    destruct s as [|c s']; [contradiction|].
    assert (Hc : N.eqb c STAR = false).
    { simpl in Hs. now apply orb_false_iff in Hs as [Hc _]. }
    assert (Eb : atBold (STAR :: (c :: s') ++ STAR :: rest) = false).
    { rewrite atBold_cons. simpl app. now rewrite atStar_cons, Hc. }
    assert (Es : atStar (STAR :: (c :: s') ++ STAR :: rest)
                 && negb (charIs STAR (charAt ((c :: s') ++ STAR :: rest) 0)) = true).
    { simpl. now rewrite Hc. }
    rewrite Eb, Es.
    rewrite (@scan_app_stop atStar (c :: s') (STAR :: rest)
               (proj1 (@no_star_no_stop _ _ Hs)) (or_intror eq_refl)).
    apply parseInline_loop_span.
  - intros Hs. rewrite parseInline_loop_cons.
    change (atBold (BACKTICK :: s ++ BACKTICK :: rest)) with false.
    change (atStar (BACKTICK :: s ++ BACKTICK :: rest)) with false.
    change (atTick (BACKTICK :: s ++ BACKTICK :: rest)) with true. simpl andb. cbv iota.
    rewrite (@scan_app_stop atTick s (BACKTICK :: rest)
               (@no_tick_no_stop _ _ Hs) (or_intror eq_refl)).
    apply parseInline_loop_span.
Qed.

Lemma parseInline_closed_span_witness :
  forallb (fun c => negb (isMarker c)) (str "a ") = true /\
  existsb (lit STAR) (str "b") = false /\
  parseInline (str "a **b** c")
  = [plainRun (str "a "); boldRun (str "b"); plainRun (str " c")].
Proof.
  split; [reflexivity|]. split; [reflexivity|].
  exact (proj1 (@parseInline_closed_span (str "a ") (str "b") (str " c") eq_refl) eq_refl).
Defined.

(* --------------------------------------------------------------------- *)
(* The line classifier: the other branches                                *)
(* --------------------------------------------------------------------- *)

(** X9.  Lines that begin with "## ", "### ", "- " or "* " and go on with
    a character that is not a line terminator: the first two are
    HEADING_2 and HEADING_3 segments with the remainder, up to its first
    line terminator, as one unstyled run; the last two are bullet
    segments of style NORMAL_TEXT whose runs are the inline parse of that
    remainder. *)
Theorem classifyLine_marked (c : char) (r : jsstring) :
  lineTerminator c = false ->
  classifyLine (HASH :: HASH :: SPACE :: c :: r)
  = {| inlines := [plainRun (c :: takeWhile (fun d => negb (lineTerminator d)) r)];
       style := HEADING_2; bullet := None |}
  /\ classifyLine (HASH :: HASH :: HASH :: SPACE :: c :: r)
     = {| inlines := [plainRun (c :: takeWhile (fun d => negb (lineTerminator d)) r)];
          style := HEADING_3; bullet := None |}
  /\ classifyLine (DASH :: SPACE :: c :: r)
     = {| inlines := parseInline (c :: takeWhile (fun d => negb (lineTerminator d)) r);
          style := NORMAL_TEXT; bullet := Some true |}
  /\ classifyLine (STAR :: SPACE :: c :: r)
     = {| inlines := parseInline (c :: takeWhile (fun d => negb (lineTerminator d)) r);
          style := NORMAL_TEXT; bullet := Some true |}.
Proof.
  intros Hc. unfold classifyLine, regexMatch, reH1, reH2, reH3, reBullet.
  simpl. rewrite Hc. simpl. repeat split.
Qed.

Lemma classifyLine_marked_witness :
  lineTerminator 98%N = false /\
  classifyLine (str "* b*c*")
  = {| inlines := [plainRun (str "b"); italicRun (str "c")];
       style := NORMAL_TEXT; bullet := Some true |}.
Proof.
  split; [reflexivity|].
  exact (proj2 (proj2 (proj2 (@classifyLine_marked 98%N (str "*c*") eq_refl)))).
Defined.

Lemma regexMatch_inv (pat : list (char -> bool)) (line cap : jsstring) :
  regexMatch pat line = Some cap ->
  cap <> [] /\ exists after, matchHead pat line = Some after.
Proof.
  unfold regexMatch. destruct (matchHead pat line) as [after|]; [|discriminate].
  destruct (takeWhile _ after); [discriminate|].
  intros E. injection E as <-. split; [discriminate|now exists after].
Qed.

Lemma matchHead_cons (p : char -> bool) (pat : list (char -> bool))
      (line after : jsstring) :
  matchHead (p :: pat) line = Some after ->
  exists c line', line = c :: line' /\ p c = true /\ matchHead pat line' = Some after.
Proof.
  simpl. destruct line as [|c line']; [discriminate|].
  destruct (p c) eqn:E; [|discriminate]. intros H. now exists c, line'.
Qed.

(* What each pattern says about the first characters of a line. *)
Lemma reH1_head (line cap : jsstring) :
  regexMatch reH1 line = Some cap -> exists l, line = HASH :: SPACE :: l.
Proof.
  intros H. apply regexMatch_inv in H as [_ [after H]]. unfold reH1 in H.
  apply matchHead_cons in H as [c0 [l0 [-> [E0 H]]]].
  apply matchHead_cons in H as [c1 [l1 [-> [E1 H]]]].
  apply N.eqb_eq in E0, E1. subst. now exists l1.
Qed.

Lemma reH2_head (line cap : jsstring) :
  regexMatch reH2 line = Some cap -> exists l, line = HASH :: HASH :: SPACE :: l.
Proof.
  intros H. apply regexMatch_inv in H as [_ [after H]]. unfold reH2 in H.
  apply matchHead_cons in H as [c0 [l0 [-> [E0 H]]]].
  apply matchHead_cons in H as [c1 [l1 [-> [E1 H]]]].
  apply matchHead_cons in H as [c2 [l2 [-> [E2 H]]]].
  apply N.eqb_eq in E0, E1, E2. subst. now exists l2.
Qed.

Lemma reH3_head (line cap : jsstring) :
  regexMatch reH3 line = Some cap ->
  exists l, line = HASH :: HASH :: HASH :: SPACE :: l.
Proof.
  intros H. apply regexMatch_inv in H as [_ [after H]]. unfold reH3 in H.
  apply matchHead_cons in H as [c0 [l0 [-> [E0 H]]]].
  apply matchHead_cons in H as [c1 [l1 [-> [E1 H]]]].
  apply matchHead_cons in H as [c2 [l2 [-> [E2 H]]]].
  apply matchHead_cons in H as [c3 [l3 [-> [E3 H]]]].
  apply N.eqb_eq in E0, E1, E2, E3. subst. now exists l3.
Qed.

Lemma reBullet_head (line cap : jsstring) :
  regexMatch reBullet line = Some cap ->
  exists c l, line = c :: SPACE :: l /\ (c = DASH \/ c = STAR).
Proof.
  intros H. apply regexMatch_inv in H as [_ [after H]]. unfold reBullet in H.
  apply matchHead_cons in H as [c0 [l0 [-> [E0 H]]]].
  apply matchHead_cons in H as [c1 [l1 [-> [E1 H]]]].
  apply N.eqb_eq in E1. subst. exists c0, l1. split; [reflexivity|].
  apply orb_true_iff in E0 as [E|E]; apply N.eqb_eq in E; auto.
Qed.

(** X10.  At most one of the four patterns matches a line, so the order
    in which the classifier tests them decides nothing. *)
Theorem patterns_exclusive (line : jsstring) :
  (regexMatch reH1 line <> None ->
     regexMatch reH2 line = None /\ regexMatch reH3 line = None
     /\ regexMatch reBullet line = None) /\
  (regexMatch reH2 line <> None ->
     regexMatch reH3 line = None /\ regexMatch reBullet line = None) /\
  (regexMatch reH3 line <> None -> regexMatch reBullet line = None).
Proof.
  destruct (regexMatch reH1 line) as [c1|] eqn:E1;
  destruct (regexMatch reH2 line) as [c2|] eqn:E2;
  destruct (regexMatch reH3 line) as [c3|] eqn:E3;
  destruct (regexMatch reBullet line) as [c4|] eqn:E4;
  try (apply reH1_head in E1 as [l1 E1]);
  try (apply reH2_head in E2 as [l2 E2]);
  try (apply reH3_head in E3 as [l3 E3]);
  try (apply reBullet_head in E4 as [c [l4 [E4 [Hc|Hc]]]]);
  subst; try discriminate;
  repeat split; intros; try reflexivity; try congruence.
Qed.

Lemma patterns_exclusive_witness :
  regexMatch reH1 (str "# - x") <> None /\
  regexMatch reBullet (str "# - x") = None.
Proof.
  split; [discriminate|].
  apply (proj1 (patterns_exclusive (str "# - x"))). discriminate.
Defined.

(** X11.  The two facets of a segment never combine: a heading segment is
    never a bullet and holds exactly one unstyled run, which is not
    empty; a bullet segment has the style NORMAL_TEXT; and the bullet
    property is either absent or true. *)
Theorem classifyLine_facets (line : jsstring) :
  (isNormalText (style (classifyLine line)) = false ->
     bullet (classifyLine line) = None /\
     exists t, t <> [] /\ inlines (classifyLine line) = [plainRun t]) /\
  (truthy (bullet (classifyLine line)) = true ->
     style (classifyLine line) = NORMAL_TEXT) /\
  (bullet (classifyLine line) = None \/ bullet (classifyLine line) = Some true).
Proof.
  unfold classifyLine.
  destruct (regexMatch reH1 line) as [c1|] eqn:E1.
  { apply regexMatch_inv in E1 as [Hne _]. simpl. repeat split; auto; try discriminate.
    now exists c1. }
  destruct (regexMatch reH2 line) as [c2|] eqn:E2.
  { apply regexMatch_inv in E2 as [Hne _]. simpl. repeat split; auto; try discriminate.
    now exists c2. }
  destruct (regexMatch reH3 line) as [c3|] eqn:E3.
  { apply regexMatch_inv in E3 as [Hne _]. simpl. repeat split; auto; try discriminate.
    now exists c3. }
  destruct (regexMatch reBullet line) as [c4|].
  { simpl. repeat split; auto; discriminate. }
  destruct (isEmpty (trim line)); simpl; repeat split; auto; discriminate.
Qed.

Lemma classifyLine_facets_witness :
  isNormalText (style (classifyLine (str "## *a*"))) = false /\
  bullet (classifyLine (str "## *a*")) = None.
Proof.
  split; [reflexivity|].
  exact (proj1 (proj1 (classifyLine_facets (str "## *a*")) eq_refl)).
Defined.

(* --------------------------------------------------------------------- *)
(* Blank lines                                                            *)
(* --------------------------------------------------------------------- *)

Lemma dropWhile_all (p : char -> bool) (s : jsstring) :
  forallb p s = true -> dropWhile p s = [].
Proof.
  induction s as [|c s' IH]; simpl; [reflexivity|].
  intros H. apply andb_true_iff in H as [H1 H2]. now rewrite H1, IH.
Qed.

Lemma dropWhile_keeps (p : char -> bool) (s : jsstring) :
  forallb p s = false -> dropWhile p s <> [].
Proof.
  induction s as [|c s' IH]; simpl; [discriminate|].
  destruct (p c); simpl; [exact IH|discriminate].
Qed.

Lemma dropWhile_head (p : char -> bool) (s : jsstring) :
  forallb p (dropWhile p s) = true -> dropWhile p s = [].
Proof.
  induction s as [|c s' IH]; simpl; [reflexivity|].
  destruct (p c) eqn:E; [exact IH|]. simpl. rewrite E. discriminate.
Qed.

Lemma forallb_rev (p : char -> bool) (s : jsstring) :
  forallb p (rev s) = forallb p s.
Proof.
  induction s as [|c s' IH]; simpl; [reflexivity|].
  rewrite forallb_app, IH. simpl. rewrite andb_true_r. apply andb_comm.
Qed.

(* [line.trim() === ""] holds exactly for the lines made of white space. *)
Lemma trim_empty (line : jsstring) :
  isEmpty (trim line) = forallb whiteSpace line.
Proof.
  unfold trim. destruct (forallb whiteSpace line) eqn:E.
  - now rewrite (dropWhile_all _ _ E).
  - pose proof (dropWhile_keeps _ _ E) as Hne.
    assert (H : forallb whiteSpace (rev (dropWhile whiteSpace line)) = false).
    { rewrite forallb_rev. destruct (forallb whiteSpace (dropWhile whiteSpace line)) eqn:F;
        [|reflexivity]. now apply dropWhile_head in F. }
    apply dropWhile_keeps in H.
    destruct (dropWhile whiteSpace (rev (dropWhile whiteSpace line))) as [|d ds];
      [contradiction|].
    simpl. destruct (rev ds ++ [d]) eqn:R; [|reflexivity].
    now apply app_eq_nil in R as [_ R].
Qed.

Lemma whiteSpace_no_pattern (pat : list (char -> bool)) (p : char -> bool)
      (line : jsstring) :
  (forall c, p c = true -> whiteSpace c = false) ->
  forallb whiteSpace line = true -> regexMatch (p :: pat) line = None.
Proof.
  intros Hp Hw. unfold regexMatch. simpl.
  destruct line as [|c line']; [reflexivity|].
  simpl in Hw. apply andb_true_iff in Hw as [Hc _].
  destruct (p c) eqn:E; [|reflexivity]. rewrite (Hp c E) in Hc. discriminate.
Qed.

Lemma hash_not_whiteSpace (c : char) : lit HASH c = true -> whiteSpace c = false.
Proof. unfold lit. intros H. apply N.eqb_eq in H. now subst. Qed.

Lemma bullet_not_whiteSpace (c : char) :
  N.eqb c DASH || N.eqb c STAR = true -> whiteSpace c = false.
Proof.
  intros H. apply orb_true_iff in H as [H|H]; apply N.eqb_eq in H; now subst.
Qed.

Lemma parseInline_not_blank (line : jsstring) : parseInline line <> [plainRun []].
Proof.
  intros E. destruct (parseInline_loop_shape line []) as [Hw _].
  fold (parseInline line) in Hw. rewrite E in Hw.
  inversion Hw as [|run runs Hrun _]; subst.
  destruct Hrun as [[t [Ht Heq]]|[[t Heq]|[t Heq]]]; try discriminate.
  injection Heq as <-. contradiction.
Qed.

(** X12.  A line is classified as the blank segment, the paragraph with
    the single empty run, exactly when all its characters are white
    space (the empty line included); the white space of such a line is
    dropped and the line renders as a lone newline. *)
Theorem classifyLine_blank (line : jsstring) :
  (forallb whiteSpace line = true ->
     classifyLine line = blankSegment /\ segText (classifyLine line) = [NEWLINE]) /\
  (classifyLine line = blankSegment -> forallb whiteSpace line = true).
Proof.
  split.
  - intros Hw. assert (E : classifyLine line = blankSegment).
    { unfold classifyLine, reH1, reH2, reH3, reBullet.
      rewrite (whiteSpace_no_pattern _ _ _ hash_not_whiteSpace Hw).
      rewrite (whiteSpace_no_pattern _ _ _ hash_not_whiteSpace Hw).
      rewrite (whiteSpace_no_pattern _ _ _ hash_not_whiteSpace Hw).
      rewrite (whiteSpace_no_pattern _ _ _ bullet_not_whiteSpace Hw).
      now rewrite trim_empty, Hw. }
    now rewrite E.
  - unfold classifyLine, blankSegment.
    destruct (regexMatch reH1 line); [discriminate|].
    destruct (regexMatch reH2 line); [discriminate|].
    destruct (regexMatch reH3 line); [discriminate|].
    destruct (regexMatch reBullet line); [discriminate|].
    rewrite trim_empty. destruct (forallb whiteSpace line); [reflexivity|].
    intros E. injection E as E. now apply parseInline_not_blank in E.
Qed.

Lemma classifyLine_blank_witness :
  forallb whiteSpace [SPACE; 9%N; 160%N] = true /\
  classifyLine [SPACE; 9%N; 160%N] = blankSegment.
Proof.
  split; [reflexivity|].
  exact (proj1 (proj1 (classifyLine_blank [SPACE; 9%N; 160%N]) eq_refl)).
Defined.

(* --------------------------------------------------------------------- *)
(* The layout loop and the ranges by recursion                            *)
(* --------------------------------------------------------------------- *)

Lemma inlineStep_fold (runs : list InlineSegment) :
  forall (i : nat) (ranges : list StyleRange),
    fold_left inlineStep runs (i, ranges)
    = (i + length (joinTexts runs), ranges ++ inlineRangesFrom i runs).
Proof.
  induction runs as [|run runs' IH]; intros i ranges; simpl.
  - now rewrite Nat.add_0_r, app_nil_r.
  - unfold inlineStep at 2. simpl. rewrite IH. unfold inlineRange.
    rewrite length_app, Nat.add_assoc.
    destruct (truthy (bold run) || truthy (italic run)); simpl;
      now rewrite <- ?app_assoc.
Qed.

Lemma layoutStep_ranges_eq (st : LayoutState) (seg : DocSegment) :
  styleRanges (layoutStep st seg)
  = styleRanges st ++ segmentRanges (currentIndex st) seg.
Proof.
  unfold layoutStep. simpl. rewrite inlineStep_fold. simpl.
  unfold segmentRanges, blockRange.
  destruct (negb (isNormalText (style seg)) || truthy (bullet seg)); simpl;
    now rewrite <- ?app_assoc.
Qed.

Lemma layout_fold_ranges (segs : list DocSegment) :
  forall st : LayoutState,
    styleRanges (fold_left layoutStep segs st)
    = styleRanges st ++ rangesFrom (currentIndex st) segs.
Proof.
  induction segs as [|seg segs' IH]; intros st; simpl.
  - now rewrite app_nil_r.
  - rewrite IH, layoutStep_ranges_eq, <- app_assoc. reflexivity.
Qed.

Lemma layout_ranges_eq (segs : list DocSegment) :
  styleRanges (layout segs) = rangesFrom 1 segs.
Proof. unfold layout. now rewrite layout_fold_ranges. Qed.

Lemma layout_currentIndex (segs : list DocSegment) :
  currentIndex (layout segs) = 1 + length (fullText (layout segs)).
Proof.
  unfold layout at 1. rewrite layout_fold_currentIndex, layout_fullText. reflexivity.
Qed.

(* Chains *)

Lemma chain_le (rs : list StyleRange) : forall lo hi, chain lo hi rs -> lo <= hi.
Proof.
  induction rs as [|r rs' IH]; simpl; intros lo hi H; [exact H|].
  destruct H as [H1 [H2 H3]]. apply IH in H3. lia.
Qed.

Lemma chain_weaken (rs : list StyleRange) :
  forall lo lo' hi hi', lo' <= lo -> hi <= hi' -> chain lo hi rs -> chain lo' hi' rs.
Proof.
  induction rs as [|r rs' IH]; simpl; intros lo lo' hi hi' Hlo Hhi H; [lia|].
  destruct H as [H1 [H2 H3]]. repeat split; try lia.
  now apply IH with (lo := endIndex r) (hi := hi).
Qed.

Lemma chain_app (rs1 rs2 : list StyleRange) :
  forall lo mid hi, chain lo mid rs1 -> chain mid hi rs2 -> chain lo hi (rs1 ++ rs2).
Proof.
  induction rs1 as [|r rs1' IH]; simpl; intros lo mid hi H1 H2.
  - now apply chain_weaken with (lo := mid) (hi := hi).
  - destruct H1 as [A [B C]]. repeat split; try assumption. now apply IH with (mid := mid).
Qed.

Lemma chain_bounds (rs : list StyleRange) :
  forall lo hi, chain lo hi rs ->
    Forall (fun r => lo <= startIndex r /\ startIndex r <= endIndex r /\ endIndex r <= hi) rs.
Proof.
  induction rs as [|r rs' IH]; simpl; intros lo hi H; [constructor|].
  destruct H as [H1 [H2 H3]]. constructor.
  - apply chain_le in H3. lia.
  - eapply Forall_impl; [|apply (IH _ _ H3)]. simpl. intros a [A [B C]]. lia.
Qed.

Lemma inlineRangesFrom_chain (runs : list InlineSegment) :
  forall i, chain i (i + length (joinTexts runs)) (inlineRangesFrom i runs).
Proof.
  induction runs as [|run runs' IH]; intros i; simpl; [lia|].
  rewrite length_app, Nat.add_assoc.
  apply chain_app with (mid := i + length (text run)); [|apply IH].
  unfold inlineRange. destruct (truthy (bold run) || truthy (italic run)); simpl; lia.
Qed.

Lemma inlineRangesFrom_inline (runs : list InlineSegment) :
  forall i, filter isInline (inlineRangesFrom i runs) = inlineRangesFrom i runs
            /\ filter (fun r => negb (isInline r)) (inlineRangesFrom i runs) = [].
Proof.
  induction runs as [|run runs' IH]; intros i; simpl; [now split|].
  rewrite !filter_app. destruct (IH (i + length (text run))) as [-> ->].
  unfold inlineRange. destruct (truthy (bold run) || truthy (italic run)); now split.
Qed.

Lemma blockRange_block (i : nat) (seg : DocSegment) :
  filter isInline (blockRange i seg) = []
  /\ filter (fun r => negb (isInline r)) (blockRange i seg) = blockRange i seg.
Proof.
  unfold blockRange.
  destruct (negb (isNormalText (style seg)) || truthy (bullet seg)); now split.
Qed.

Lemma rangesFrom_chains (segs : list DocSegment) :
  forall i,
    chain i (i + length (flat_map segText segs)) (filter isInline (rangesFrom i segs)) /\
    chain i (i + length (flat_map segText segs))
          (filter (fun r => negb (isInline r)) (rangesFrom i segs)).
Proof.
  induction segs as [|seg segs' IH]; intros i; simpl; [split; lia|].
  unfold segmentRanges. rewrite !filter_app, length_app, Nat.add_assoc.
  destruct (blockRange_block i seg) as [-> ->].
  destruct (inlineRangesFrom_inline (inlines seg) i) as [-> ->].
  destruct (IH (i + length (segText seg))) as [I1 I2]. simpl. split.
  - apply chain_app with (mid := i + length (segText seg)); [|exact I1].
    apply chain_weaken with (lo := i) (hi := i + length (joinTexts (inlines seg)));
      [lia| |apply inlineRangesFrom_chain].
    unfold segText. rewrite length_app. lia.
  - apply chain_app with (mid := i + length (segText seg)); [|exact I2].
    unfold blockRange.
    destruct (negb (isNormalText (style seg)) || truthy (bullet seg)); simpl; lia.
Qed.

(** X13.  The recorded ranges never overlap within their kind: the text
    style ranges, in recording order, lie inside the text buffer (from
    index 1 to one past its last character), each with its bounds in
    order and starting no earlier than the previous one ends; the same
    holds of the paragraph and bullet ranges.  The running offset ends at
    one more than the length of the buffer. *)
Theorem styleRanges_chained (segs : list DocSegment) :
  chain 1 (1 + length (fullText (layout segs)))
        (filter isInline (styleRanges (layout segs))) /\
  chain 1 (1 + length (fullText (layout segs)))
        (filter (fun r => negb (isInline r)) (styleRanges (layout segs))) /\
  currentIndex (layout segs) = 1 + length (fullText (layout segs)).
Proof.
  rewrite layout_ranges_eq, layout_fullText.
  destruct (rangesFrom_chains segs 1) as [H1 H2].
  split; [exact H1|]. split; [exact H2|].
  rewrite layout_currentIndex, layout_fullText. reflexivity.
Qed.

Lemma rangesFrom_bounds (segs : list DocSegment) (i : nat) :
  Forall (fun r => i <= startIndex r /\ startIndex r <= endIndex r
                   /\ endIndex r <= i + length (flat_map segText segs))
         (rangesFrom i segs).
Proof.
  destruct (rangesFrom_chains segs i) as [H1 H2].
  apply chain_bounds in H1, H2. rewrite Forall_forall in *.
  intros r Hr. destruct (isInline r) eqn:E.
  - apply H1. apply filter_In. now split.
  - apply H2. apply filter_In. split; [exact Hr|]. now rewrite E.
Qed.

Lemma rangeRequests_inBounds (hi : nat) (r : StyleRange) :
  1 <= startIndex r /\ startIndex r <= endIndex r /\ endIndex r <= hi ->
  Forall (inBounds hi) (rangeRequests r).
Proof.
  intros H. unfold rangeRequests. repeat (apply Forall_app; split).
  - destruct (paragraphStyle r) as [n|]; [|constructor].
    destruct (truthyStyle (Some n)); repeat constructor; apply H.
  - destruct (truthy (rangeBullet r)); repeat constructor; apply H.
  - destruct (textStyle r); repeat constructor; apply H.
Qed.

(** X14.  Every request addresses the inserted text: the insertion is at
    index 1, and the range of every style request has its bounds in
    order and lies between index 1 and one past the last inserted
    character. *)
Theorem requests_in_bounds (markdown : jsstring) :
  Forall (inBounds (1 + length (fullText (layout (segments markdown)))))
         (markdownToDocRequests markdown).
Proof.
  rewrite (proj1 (markdownToDocRequests_shape markdown)).
  constructor; [reflexivity|].
  rewrite layout_ranges_eq, layout_fullText.
  pose proof (rangesFrom_bounds (segments markdown) 1) as H.
  induction H as [|r rs Hr Hrs IH]; simpl; [constructor|].
  apply Forall_app. split; [now apply rangeRequests_inBounds|exact IH].
Qed.

(* --------------------------------------------------------------------- *)
(* The ranges address the text they style                                 *)
(* --------------------------------------------------------------------- *)

Lemma substring_mid (pre t post : jsstring) :
  substring (pre ++ t ++ post) (length pre) (length pre + length t) = t.
Proof.
  unfold substring. rewrite skipn_app, skipn_all, Nat.sub_diag. simpl.
  replace (length pre + length t - length pre) with (length t + 0) by lia.
  now rewrite firstn_app_2, firstn_O, app_nil_r.
Qed.

Lemma addresses_mid (pre t post : jsstring) (r : StyleRange) :
  startIndex r = S (length pre) -> endIndex r = S (length pre) + length t ->
  addresses (pre ++ t ++ post) r t.
Proof.
  intros Hs He. unfold addresses. rewrite Hs, He. repeat split; try lia.
  replace (S (length pre) - 1) with (length pre) by lia.
  replace (S (length pre) + length t - 1) with (length pre + length t) by lia.
  apply substring_mid.
Qed.

Lemma inlineRangesFrom_addresses (runs : list InlineSegment) :
  forall pre post : jsstring,
    Forall (fun r => exists run,
                In run runs /\
                textStyle r = Some [("bold"%string, bold run); ("italic"%string, italic run)] /\
                paragraphStyle r = None /\ rangeBullet r = None /\
                addresses (pre ++ joinTexts runs ++ post) r (text run))
           (inlineRangesFrom (S (length pre)) runs).
Proof.
  induction runs as [|run runs' IH]; intros pre post; simpl; [constructor|].
  apply Forall_app. split.
  - unfold inlineRange. destruct (truthy (bold run) || truthy (italic run)); [|constructor].
    constructor; [|constructor]. exists run.
    split; [now left|]. do 3 (split; [reflexivity|]).
    rewrite <- app_assoc. apply addresses_mid; reflexivity.
  - specialize (IH (pre ++ text run) post).
    rewrite length_app in IH. rewrite <- !app_assoc in IH.
    replace (S (length pre) + length (text run))
      with (S (length pre + length (text run))) by lia.
    rewrite <- app_assoc.
    eapply Forall_impl; [|exact IH]. simpl.
    intros r [run' [Hin H]]. exists run'. split; [now right|exact H].
Qed.

Lemma rangeSource_cons (seg : DocSegment) (segs : list DocSegment)
      (r : StyleRange) (t : jsstring) :
  rangeSource segs r t -> rangeSource (seg :: segs) r t.
Proof.
  intros [s Hin Ht H1 H2 H3|s run Hin Hrun Ht H1 H2 H3].
  - eapply source_block; eauto. now right.
  - eapply source_inline; eauto. now right.
Qed.

Lemma rangesFrom_addresses (segs : list DocSegment) :
  forall pre post : jsstring,
    Forall (fun r => exists t,
                rangeSource segs r t /\
                addresses (pre ++ flat_map segText segs ++ post) r t)
           (rangesFrom (S (length pre)) segs).
Proof.
  induction segs as [|seg segs' IH]; intros pre post; simpl; [constructor|].
  apply Forall_app. split; [apply Forall_app; split|].
  - unfold blockRange.
    destruct (negb (isNormalText (style seg)) || truthy (bullet seg)); [|constructor].
    constructor; [|constructor]. exists (segText seg). split.
    + eapply source_block; [now left|reflexivity..].
    + rewrite <- app_assoc. now apply addresses_mid.
  - pose proof (inlineRangesFrom_addresses (inlines seg) pre
                  ([NEWLINE] ++ flat_map segText segs' ++ post)) as H.
    unfold segText at 1. rewrite <- !app_assoc.
    eapply Forall_impl; [|exact H]. simpl.
    intros r [run [Hin [H1 [H2 [H3 H4]]]]]. exists (text run). split; [|exact H4].
    eapply source_inline; [now left|exact Hin|reflexivity|exact H1|exact H2|exact H3].
  - specialize (IH (pre ++ segText seg) post).
    rewrite length_app in IH. rewrite <- !app_assoc in IH.
    replace (S (length pre) + length (segText seg))
      with (S (length pre + length (segText seg))) by lia.
    rewrite <- app_assoc.
    eapply Forall_impl; [|exact IH]. simpl.
    intros r [t [Hsrc Ha]]. exists t. split; [now apply rangeSource_cons|exact Ha].
Qed.

(** X15.  Every recorded range addresses exactly the text it was recorded
    for: a paragraph or bullet range comes from a segment and the
    characters of the buffer from its start index up to its end index are
    that segment's rendered line, newline included; a text style range
    comes from a run, carries the run's flags, and the characters it
    spans are the run's text. *)
Theorem styleRanges_address_their_text (segs : list DocSegment) :
  Forall (fun r => exists t,
              rangeSource segs r t /\ addresses (fullText (layout segs)) r t)
         (styleRanges (layout segs)).
Proof.
  rewrite layout_ranges_eq, layout_fullText.
  pose proof (rangesFrom_addresses segs [] []) as H.
  simpl in H. now rewrite app_nil_r in H.
Qed.

(* --------------------------------------------------------------------- *)
(* From ranges to requests                                                *)
(* --------------------------------------------------------------------- *)

(* The requests of the range of a segment: a bullet request when the
   segment is a bullet, else a paragraph style request when its style is
   a heading, else none. *)
Lemma blockRange_requests (i : nat) (seg : DocSegment) :
  flat_map rangeRequests (blockRange i seg)
  = if truthy (bullet seg) then
      [createParagraphBullets i (i + length (segText seg)) "BULLET_DISC_CIRCLE_SQUARE"]
    else if isNormalText (style seg) then []
    else [updateParagraphStyle i (i + length (segText seg))
            (namedStyleType (style seg)) "namedStyleType"].
Proof.
  unfold blockRange, rangeRequests.
  destruct (truthy (bullet seg)) eqn:Eb; destruct (style seg); simpl;
    rewrite ?Eb; reflexivity.
Qed.

(* The requests of the ranges of the runs: one text style request for
   each run that is not plain. *)
Lemma inlineRange_requests (i : nat) (run : InlineSegment) :
  flat_map rangeRequests (inlineRange i run)
  = if isPlain run then []
    else [updateTextStyle i (i + length (text run))
            [("bold"%string, bold run); ("italic"%string, italic run)] "bold,italic"].
Proof.
  unfold inlineRange, isPlain.
  destruct (truthy (bold run) || truthy (italic run)); reflexivity.
Qed.

Lemma inlineRangesFrom_requests (runs : list InlineSegment) :
  forall i,
    Forall (fun req => isTextStyleRequest req = true)
           (flat_map rangeRequests (inlineRangesFrom i runs)) /\
    length (flat_map rangeRequests (inlineRangesFrom i runs))
    = length (filter (fun run => negb (isPlain run)) runs) /\
    length (inlineRangesFrom i runs)
    = length (filter (fun run => negb (isPlain run)) runs).
Proof.
  induction runs as [|run runs' IH]; intros i; simpl; [repeat split; constructor|].
  rewrite flat_map_app, inlineRange_requests, !length_app.
  destruct (IH (i + length (text run))) as [H1 [H2 H3]].
  unfold inlineRange, isPlain in *.
  destruct (truthy (bold run) || truthy (italic run)); simpl; repeat split;
    try (constructor; [reflexivity|]); auto.
Qed.

Lemma filter_all (A : Type) (f : A -> bool) (l : list A) :
  Forall (fun a => f a = true) l -> filter f l = l.
Proof.
  induction 1 as [|a l' Ha Hl IH]; simpl; [reflexivity|]. now rewrite Ha, IH.
Qed.

Lemma filter_none (A : Type) (f g : A -> bool) (l : list A) :
  (forall a, g a = true -> f a = false) ->
  Forall (fun a => g a = true) l -> filter f l = [].
Proof.
  intros Hfg. induction 1 as [|a l' Ha Hl IH]; simpl; [reflexivity|].
  now rewrite (Hfg a Ha), IH.
Qed.

Lemma rangesFrom_request_counts (segs : list DocSegment) :
  forall i,
    length (filter isParagraphStyleRequest (flat_map rangeRequests (rangesFrom i segs)))
    = length (filter (fun seg => negb (isNormalText (style seg)) && negb (truthy (bullet seg)))
                     segs) /\
    length (filter isBulletsRequest (flat_map rangeRequests (rangesFrom i segs)))
    = length (filter (fun seg => truthy (bullet seg)) segs) /\
    length (filter isTextStyleRequest (flat_map rangeRequests (rangesFrom i segs)))
    = length (filter (fun run => negb (isPlain run)) (flat_map inlines segs)) /\
    length (flat_map rangeRequests (rangesFrom i segs)) = length (rangesFrom i segs) /\
    Forall namesHeading (flat_map rangeRequests (rangesFrom i segs)).
Proof.
  induction segs as [|seg segs' IH]; intros i; simpl; [repeat split; constructor|].
  unfold segmentRanges.
  rewrite !flat_map_app, !filter_app, !length_app, blockRange_requests.
  destruct (IH (i + length (segText seg))) as [I1 [I2 [I3 [I4 I5]]]].
  destruct (inlineRangesFrom_requests (inlines seg) i) as [Ht [Hl Hl']].
  rewrite (filter_all _ Ht), I1, I2, I3, I4, Hl, Hl'.
  rewrite (@filter_none _ isParagraphStyleRequest isTextStyleRequest _
             ltac:(intros [] H; simpl in *; congruence) Ht).
  rewrite (@filter_none _ isBulletsRequest isTextStyleRequest _
             ltac:(intros [] H; simpl in *; congruence) Ht).
  assert (Hn : Forall namesHeading
                 (flat_map rangeRequests (inlineRangesFrom i (inlines seg)))).
  { eapply Forall_impl; [|exact Ht]. intros []; simpl; auto; discriminate. }
  unfold blockRange.
  destruct (truthy (bullet seg)); destruct (style seg); simpl;
    repeat split; try lia;
    repeat match goal with
           | |- Forall _ (_ :: _) => constructor
           | |- Forall _ (_ ++ _) => apply Forall_app; split
           | |- Forall _ [] => constructor
           end; try assumption; simpl; auto.
Qed.

Lemma classifyLine_heading_not_bullet (line : jsstring) :
  negb (isNormalText (style (classifyLine line)))
  && negb (truthy (bullet (classifyLine line)))
  = negb (isNormalText (style (classifyLine line))).
Proof.
  unfold classifyLine.
  destruct (regexMatch reH1 line); [reflexivity|].
  destruct (regexMatch reH2 line); [reflexivity|].
  destruct (regexMatch reH3 line); [reflexivity|].
  destruct (regexMatch reBullet line); [reflexivity|].
  destruct (isEmpty (trim line)); reflexivity.
Qed.

(* One request for each range of a segment and for each range of a run. *)
Lemma blockRange_single (i : nat) (seg : DocSegment) :
  Forall (fun r => exists req, rangeRequests r = [req]) (blockRange i seg).
Proof.
  unfold blockRange.
  destruct (negb (isNormalText (style seg)) || truthy (bullet seg)) eqn:E;
    [|constructor].
  constructor; [|constructor]. unfold rangeRequests. simpl.
  destruct (truthy (bullet seg)) eqn:Eb.
  - eexists. reflexivity.
  - destruct (style seg); simpl in E; try discriminate; eexists; reflexivity.
Qed.

Lemma inlineRangesFrom_single (runs : list InlineSegment) :
  forall i, Forall (fun r => exists req, rangeRequests r = [req])
                   (inlineRangesFrom i runs).
Proof.
  induction runs as [|run runs' IH]; intros i; simpl; [constructor|].
  apply Forall_app. split; [|apply IH].
  unfold inlineRange. destruct (truthy (bold run) || truthy (italic run));
    [|constructor].
  constructor; [|constructor]. eexists. reflexivity.
Qed.

Lemma rangesFrom_single (segs : list DocSegment) :
  forall i, Forall (fun r => exists req, rangeRequests r = [req]) (rangesFrom i segs).
Proof.
  induction segs as [|seg segs' IH]; intros i; simpl; [constructor|].
  unfold segmentRanges. repeat (apply Forall_app; split).
  - apply blockRange_single.
  - apply inlineRangesFrom_single.
  - apply IH.
Qed.

(** X16.  Ranges and requests correspond one to one: each recorded range
    gives exactly one request, so the request list has one request more
    than there are ranges; and a paragraph style request always names
    HEADING_1, HEADING_2 or HEADING_3, never NORMAL_TEXT. *)
Theorem requests_one_per_range (markdown : jsstring) :
  Forall (fun r => exists req, rangeRequests r = [req])
         (styleRanges (layout (segments markdown))) /\
  Forall (fun r => length (rangeRequests r) = 1)
         (styleRanges (layout (segments markdown))) /\
  length (markdownToDocRequests markdown)
  = 1 + length (styleRanges (layout (segments markdown))) /\
  Forall namesHeading (markdownToDocRequests markdown).
Proof.
  rewrite (proj1 (markdownToDocRequests_shape markdown)), layout_ranges_eq.
  destruct (rangesFrom_request_counts (segments markdown) 1) as [_ [_ [_ [H4 H5]]]].
  pose proof (rangesFrom_single (segments markdown) 1) as H1.
  split; [exact H1|]. split.
  { eapply Forall_impl; [|exact H1]. intros r [req ->]. reflexivity. }
  simpl. rewrite H4. split; [reflexivity|]. constructor; [exact I|exact H5].
Qed.

(** X17.  The request list holds one paragraph style request for each
    heading line, one bullet request for each bullet line, and one text
    style request for each run that is bold or italic. *)
Theorem requests_counts (markdown : jsstring) :
  length (filter isParagraphStyleRequest (markdownToDocRequests markdown))
  = length (filter (fun seg => negb (isNormalText (style seg))) (segments markdown)) /\
  length (filter isBulletsRequest (markdownToDocRequests markdown))
  = length (filter (fun seg => truthy (bullet seg)) (segments markdown)) /\
  length (filter isTextStyleRequest (markdownToDocRequests markdown))
  = length (filter (fun run => negb (isPlain run))
                   (flat_map inlines (segments markdown))).
Proof.
  rewrite (proj1 (markdownToDocRequests_shape markdown)), layout_ranges_eq.
  destruct (rangesFrom_request_counts (segments markdown) 1) as [H1 [H2 [H3 _]]].
  simpl. rewrite H1, H2, H3. split; [|now split].
  f_equal. apply filter_ext_in. intros seg Hin.
  unfold segments in Hin. apply in_map_iff in Hin as [line [<- _]].
  apply classifyLine_heading_not_bullet.
Qed.

(* --------------------------------------------------------------------- *)
(* The size of the text buffer                                            *)
(* --------------------------------------------------------------------- *)

Lemma takeWhile_length (p : char -> bool) (s : jsstring) :
  length (takeWhile p s) <= length s.
Proof.
  induction s as [|c s' IH]; simpl; [lia|]. destruct (p c); simpl; lia.
Qed.

Lemma matchHead_length (pat : list (char -> bool)) :
  forall s after : jsstring, matchHead pat s = Some after -> length after <= length s.
Proof.
  induction pat as [|p pat' IH]; simpl; intros s after H.
  - injection H as ->. lia.
  - destruct s as [|c s']; [discriminate|]. destruct (p c); [|discriminate].
    apply IH in H. simpl. lia.
Qed.

Lemma regexMatch_length (pat : list (char -> bool)) (line cap : jsstring) :
  regexMatch pat line = Some cap -> length cap <= length line.
Proof.
  unfold regexMatch. destruct (matchHead pat line) as [after|] eqn:E; [|discriminate].
  pose proof (takeWhile_length (fun c => negb (lineTerminator c)) after) as Ht.
  apply matchHead_length in E.
  destruct (takeWhile _ after); [discriminate|]. intros H. injection H as <-. lia.
Qed.

Lemma inlineContent_length (line : jsstring) :
  length (inlineContent line) <= length line.
Proof.
  unfold inlineContent.
  destruct (regexMatch reH1 line) eqn:E1; [now apply regexMatch_length with (1 := E1)|].
  destruct (regexMatch reH2 line) eqn:E2; [now apply regexMatch_length with (1 := E2)|].
  destruct (regexMatch reH3 line) eqn:E3; [now apply regexMatch_length with (1 := E3)|].
  destruct (regexMatch reBullet line) eqn:E4; [now apply regexMatch_length with (1 := E4)|].
  destruct (isEmpty (trim line)); simpl; lia.
Qed.

Lemma segText_length (line : jsstring) :
  length (segText (classifyLine line)) <= length line + 1.
Proof.
  unfold segText. rewrite length_app. simpl.
  pose proof (markersDeleted_length (proj1 (classifyLine_texts line))).
  pose proof (inlineContent_length line). lia.
Qed.

Lemma flat_map_join (sep : char) (lines : list jsstring) :
  lines <> [] ->
  flat_map (fun l => l ++ [sep]) lines = join sep lines ++ [sep].
Proof.
  induction lines as [|l ls IH]; [contradiction|]. intros _.
  destruct ls as [|l' ls']; [simpl; now rewrite app_nil_r|].
  change (flat_map (fun l => l ++ [sep]) (l :: l' :: ls'))
    with ((l ++ [sep]) ++ flat_map (fun l => l ++ [sep]) (l' :: ls')).
  rewrite IH by discriminate.
  change (join sep (l :: l' :: ls')) with (l ++ sep :: join sep (l' :: ls')).
  now rewrite <- !app_assoc.
Qed.

Lemma segTexts_length (lines : list jsstring) :
  length (flat_map segText (map classifyLine lines))
  <= length (flat_map (fun l => l ++ [NEWLINE]) lines).
Proof.
  induction lines as [|l ls IH]; simpl; [lia|].
  rewrite !length_app. pose proof (segText_length l). simpl. lia.
Qed.

(** X18.  The text buffer is never longer than the input plus the final
    newline, and it holds at least one character for each line of the
    input. *)
Theorem fullText_length (markdown : jsstring) :
  length (split NEWLINE markdown) <= length (fullText (layout (segments markdown))) /\
  length (fullText (layout (segments markdown))) <= length markdown + 1.
Proof.
  rewrite layout_fullText. unfold segments. split.
  - rewrite <- (fullText_newlines (split_pieces NEWLINE markdown)).
    apply count_occ_bound.
  - eapply Nat.le_trans; [apply segTexts_length|].
    rewrite (flat_map_join NEWLINE (@split_nonempty NEWLINE markdown)), join_split.
    rewrite length_app. simpl. lia.
Qed.

(* --------------------------------------------------------------------- *)
(* Plain text passes through                                              *)
(* --------------------------------------------------------------------- *)

Lemma plainLine_classify (line : jsstring) :
  plainLine line = true ->
  segText (classifyLine line) = line ++ [NEWLINE] /\
  forall i, segmentRanges i (classifyLine line) = [].
Proof.
  unfold plainLine. intros H. apply andb_true_iff in H as [Hp H].
  destruct line as [|c l]; [now split|].
  apply andb_true_iff in H as [H Hw]. apply andb_true_iff in H as [Hh Hd].
  apply negb_true_iff in Hh, Hd, Hw.
  assert (Hs : N.eqb c STAR = false).
  { simpl in Hp. apply andb_true_iff in Hp as [Hc _].
    unfold isMarker in Hc. now apply negb_true_iff, orb_false_iff in Hc as [Hc _]. }
  assert (E : classifyLine (c :: l)
              = {| inlines := [plainRun (c :: l)]; style := NORMAL_TEXT; bullet := None |}).
  { unfold classifyLine, regexMatch, reH1, reH2, reH3, reBullet, matchHead, lit.
    rewrite Hh, Hd, Hs. simpl orb. cbv iota.
    rewrite trim_empty, Hw.
    unfold parseInline. rewrite <- (app_nil_r (c :: l)) at 1.
    rewrite (parseInline_loop_plain _ Hp). simpl app.
    now rewrite parseInline_loop_equation_1. }
  rewrite E. split; [unfold segText; simpl; now rewrite app_nil_r|reflexivity].
Qed.

Lemma plainLines_layout (lines : list jsstring) :
  Forall (fun line => plainLine line = true) lines ->
  flat_map segText (map classifyLine lines) = flat_map (fun l => l ++ [NEWLINE]) lines /\
  forall i, rangesFrom i (map classifyLine lines) = [].
Proof.
  induction 1 as [|line lines' Hl Hls [IH1 IH2]]; simpl; [now split|].
  destruct (plainLine_classify _ Hl) as [E1 E2].
  rewrite E1, IH1. split; [reflexivity|]. intros i. now rewrite E2, IH2.
Qed.

(** X19.  Plain text passes through unchanged: when no line of the input
    holds an asterisk or a backtick, starts with a hash or a dash, or
    consists of white space only, the request list is the single
    insertion of the input followed by one newline, and no style request
    is made. *)
Theorem plain_markdown_requests (markdown : jsstring) :
  Forall (fun line => plainLine line = true) (split NEWLINE markdown) ->
  markdownToDocRequests markdown = [insertText 1 (markdown ++ [NEWLINE])].
Proof.
  intros H. destruct (plainLines_layout H) as [E1 E2].
  rewrite (proj1 (markdownToDocRequests_shape markdown)).
  rewrite layout_fullText, layout_ranges_eq. unfold segments.
  rewrite E1, E2, (flat_map_join NEWLINE (@split_nonempty NEWLINE markdown)), join_split.
  reflexivity.
Qed.

Lemma plain_markdown_requests_witness :
  Forall (fun line => plainLine line = true)
         (split NEWLINE (str "Hello, world" ++ NEWLINE :: NEWLINE :: str "2 + 2 = 4")) /\
  markdownToDocRequests (str "Hello, world" ++ NEWLINE :: NEWLINE :: str "2 + 2 = 4")
  = [insertText 1 (str "Hello, world" ++ NEWLINE :: NEWLINE :: str "2 + 2 = 4"
                     ++ [NEWLINE])].
Proof.
  assert (H : Forall (fun line => plainLine line = true)
                (split NEWLINE (str "Hello, world" ++ NEWLINE :: NEWLINE :: str "2 + 2 = 4"))).
  { repeat constructor. }
  split; [exact H|]. exact (plain_markdown_requests _ H).
Defined.

(* --------------------------------------------------------------------- *)
(* Two documents, one after the other                                     *)
(* --------------------------------------------------------------------- *)

Lemma split_app (sep : char) (a b : jsstring) :
  split sep (a ++ sep :: b) = split sep a ++ split sep b.
Proof.
  induction a as [|c a' IH]; simpl.
  - now rewrite N.eqb_refl.
  - rewrite IH. destruct (N.eqb c sep); [reflexivity|].
    pose proof (@split_nonempty sep a') as Hne.
    destruct (split sep a'); [contradiction|reflexivity].
Qed.

Lemma inlineRangesFrom_shift (runs : list InlineSegment) :
  forall i k, inlineRangesFrom (i + k) runs = map (shiftRange k) (inlineRangesFrom i runs).
Proof.
  induction runs as [|run runs' IH]; intros i k; simpl; [reflexivity|].
  rewrite map_app, <- IH.
  replace (i + k + length (text run)) with (i + length (text run) + k) by lia.
  f_equal. unfold inlineRange.
  destruct (truthy (bold run) || truthy (italic run)); [|reflexivity].
  unfold shiftRange. simpl. f_equal. f_equal. lia.
Qed.

Lemma rangesFrom_shift (segs : list DocSegment) :
  forall i k, rangesFrom (i + k) segs = map (shiftRange k) (rangesFrom i segs).
Proof.
  induction segs as [|seg segs' IH]; intros i k; simpl; [reflexivity|].
  unfold segmentRanges. rewrite !map_app, <- IH, <- inlineRangesFrom_shift.
  replace (i + k + length (segText seg)) with (i + length (segText seg) + k) by lia.
  f_equal. f_equal. unfold blockRange.
  destruct (negb (isNormalText (style seg)) || truthy (bullet seg)); [|reflexivity].
  unfold shiftRange. simpl. f_equal. f_equal. lia.
Qed.

Lemma rangesFrom_app (segs1 segs2 : list DocSegment) :
  forall i, rangesFrom i (segs1 ++ segs2)
            = rangesFrom i segs1
              ++ rangesFrom (i + length (flat_map segText segs1)) segs2.
Proof.
  induction segs1 as [|seg segs1' IH]; intros i; simpl.
  - now rewrite Nat.add_0_r.
  - rewrite IH, length_app, Nat.add_assoc, <- app_assoc. reflexivity.
Qed.

Lemma rangeRequests_shift (k : nat) (r : StyleRange) :
  rangeRequests (shiftRange k r) = map (shiftRequest k) (rangeRequests r).
Proof.
  unfold rangeRequests, shiftRange. simpl. rewrite !map_app.
  destruct (paragraphStyle r) as [n|]; [destruct (truthyStyle (Some n))|];
    destruct (truthy (rangeBullet r)); destruct (textStyle r); reflexivity.
Qed.

Lemma styleRequests_shift (k : nat) (rs : list StyleRange) :
  flat_map rangeRequests (map (shiftRange k) rs)
  = map (shiftRequest k) (flat_map rangeRequests rs).
Proof.
  induction rs as [|r rs' IH]; simpl; [reflexivity|].
  now rewrite map_app, rangeRequests_shift, IH.
Qed.

(** X20.  Compiling two inputs joined by a newline composes: the segments
    are those of the first followed by those of the second, the inserted
    text is the first text followed by the second, and the style requests
    are those of the first followed by those of the second moved right by
    the length of the first text. *)
Theorem markdownToDocRequests_app (a b : jsstring) :
  segments (a ++ NEWLINE :: b) = segments a ++ segments b /\
  markdownToDocRequests (a ++ NEWLINE :: b)
  = insertText 1 (fullText (layout (segments a)) ++ fullText (layout (segments b)))
    :: flat_map rangeRequests (styleRanges (layout (segments a)))
    ++ map (shiftRequest (length (fullText (layout (segments a)))))
           (flat_map rangeRequests (styleRanges (layout (segments b)))).
Proof.
  assert (E : segments (a ++ NEWLINE :: b) = segments a ++ segments b).
  { unfold segments. now rewrite split_app, map_app. }
  split; [exact E|].
  rewrite (proj1 (markdownToDocRequests_shape _)), E.
  rewrite !layout_fullText, !layout_ranges_eq, flat_map_app, rangesFrom_app.
  rewrite rangesFrom_shift, flat_map_app, styleRequests_shift. reflexivity.
Qed.
